(** * FIML estimation of mean and covariance with missing values

    A shallow embedding of [fiml.py] and the proofs of its specification.

    Conventions of the embedding.
    - A 1-D [ndarray] is the [list] of its entries; a 2-D [ndarray] is the
      list of its rows.  An array with no rows is [[]]: its number of
      columns is not represented.
    - The source is Python 2 ([size / (size - 1.0)] forces a float division
      where [dim * (dim + 1) / 2] relies on the integer one), so [/] between
      two [int]s is the floor division on [nat].
    - Python exceptions are the [Raise] results of the [result] monad.
    - The [float64] scalars and numpy's operations on them are an interface,
      [Float64]; [np.linalg] and [scipy.optimize.fmin] are collaborators,
      [Linalg] and [Optimize].  The codec, the objective and the driver are
      proved for every implementation of them, the density formula too,
      its arithmetic being numpy's.  The real numbers extended with [nan]
      are used where every [float64] operation involved is exact.
    - Equality of arrays is equality of the stored values. *)

From stdpp Require Import base list.
From Stdlib Require Import Reals Lra Lia.

(** ** Exceptions *)

Inductive exn := IndexError | ValueError | LinAlgError | ZeroDivisionError.

Inductive result (A : Type) :=
  | Ok (a : A)
  | Raise (e : exn).
Arguments Ok {A} a.
Arguments Raise {A} e.

#[global] Instance result_ret : MRet result := @Ok.
#[global] Instance result_bind : MBind result :=
  λ A B f m, match m with Ok a => f a | Raise e => Raise e end.
#[global] Instance result_fmap : FMap result :=
  λ A B f m, match m with Ok a => Ok (f a) | Raise e => Raise e end.

(** [for x in xs: s = body(s, x)], the loop state threaded explicitly; an
    exception in the body leaves the loop. *)
Fixpoint for_each {S X : Type} (body : S → X → result S) (xs : list X) (s : S)
    : result S :=
  match xs with
  | [] => Ok s
  | x :: xs' => s' ← body s x; for_each body xs' s'
  end.

(** The results of [f] on the entries of [xs], in order; the first
    exception wins. *)
Fixpoint mapM_result {X Y : Type} (f : X → result Y) (xs : list X)
    : result (list Y) :=
  match xs with
  | [] => Ok []
  | x :: xs' => y ← f x; ys ← mapM_result f xs'; Ok (y :: ys)
  end.

(** ** The numpy scalar interface *)

Class Float64 (F : Type) := {
  f0 : F;                       (* the literal 0.0 *)
  f1 : F;                       (* the literal 1.0 *)
  fhalf : F;                    (* the literal 0.5 *)
  fpi : F;                      (* np.pi *)
  of_int : Z → F;               (* int to float, as in mixed arithmetic *)
  fadd : F → F → F;
  fsub : F → F → F;
  fmul : F → F → F;
  fdiv : F → F → F;
  fneg : F → F;
  fpow : F → F → F;             (* x ** y *)
  fexp : F → F;                 (* np.exp *)
  flog : F → F;                 (* np.log *)
  isnan : F → bool;             (* np.isnan *)
}.
Global Hint Mode Float64 ! : typeclass_instances.

(** The collaborators: [np.linalg.det], [np.linalg.inv] and
    [scipy.optimize.fmin] (called with the objective already applied to
    its extra arguments). *)
Class Linalg (F : Type) := {
  linalg_det : list (list F) → result F;
  linalg_inv : list (list F) → result (list (list F));
}.

Class Optimize (F : Type) := {
  optimize_fmin : (list F → result F) → list F → result (list F);
}.
Global Hint Mode Linalg ! : typeclass_instances.
Global Hint Mode Optimize ! : typeclass_instances.

(** ** numpy and builtin primitives *)

Module Np.
(** [range(n)] *)
Definition range (n : nat) : list nat := seq 0 n.

(** [zip(xs, ys, zs)]: stops at the shortest argument. *)
Definition zip3 {X Y W : Type} (xs : list X) (ys : list Y) (zs : list W)
    : list (X * Y * W) :=
  zip (zip xs ys) zs.

(** [a[i]] and [a[i] = v] for [0 <= i]: out of range raises. *)
Definition getitem {A : Type} (a : list A) (i : nat) : result A :=
  match a !! i with
  | Some v => Ok v
  | None => Raise IndexError
  end.

Definition setitem {A : Type} (a : list A) (i : nat) (v : A) : result (list A) :=
  if decide (i < length a) then Ok (<[i := v]> a) else Raise IndexError.

(** [a[i, j]] and [a[i, j] = v] on a 2-D array. *)
Definition getitem2 {A : Type} (a : list (list A)) (i j : nat) : result A :=
  row ← getitem a i; getitem row j.

Definition setitem2 {A : Type} (a : list (list A)) (i j : nat) (v : A)
    : result (list (list A)) :=
  row ← getitem a i; row' ← setitem row j v; setitem a i row'.

(** [a[:n] = value]: the target is the (clipped) slice; the value is copied
    when the lengths agree, broadcast when it has one entry, and refused
    otherwise. *)
Definition setslice_to {A : Type} (a : list A) (n : nat) (value : list A)
    : result (list A) :=
  let k := n `min` length a in
  if decide (length value = k) then Ok (value ++ drop k a)
  else match value with
       | [v] => Ok (replicate k v ++ drop k a)
       | _ => Raise ValueError
       end.

(** [a[mask]] with a boolean mask over the first axis: numpy refuses a mask
    that is not as long as the axis. *)
Fixpoint compress {A : Type} (mask : list bool) (a : list A) : list A :=
  match mask, a with
  | b :: mask', v :: a' => if b then v :: compress mask' a' else compress mask' a'
  | _, _ => []
  end.

Definition getmask {A : Type} (a : list A) (mask : list bool) : result (list A) :=
  if decide (length mask = length a) then Ok (compress mask a)
  else Raise IndexError.

(** [a[:, mask]]: the mask selects along the second axis, in every row. *)
Definition getmask_cols {A : Type} (a : list (list A)) (mask : list bool)
    : result (list (list A)) :=
  mapM_result (λ row, getmask row mask) a.

(** [a.shape] of a 2-D array. *)
Definition ncols {A : Type} (a : list (list A)) : nat :=
  match a with
  | [] => 0
  | row :: _ => length row
  end.

Definition shape {A : Type} (a : list (list A)) : nat * nat :=
  (length a, ncols a).

(** [np.tri(n, m, dtype=bool)]: entry [(i, j)] is [i >= j]. *)
Definition tri (n m : nat) : list (list bool) :=
  (λ i, (λ j, bool_decide (j ≤ i)) <$> seq 0 m) <$> seq 0 n.

(** [np.nonzero] of a 2-D boolean array: the positions of the [True]
    entries in row-major order, as a pair (row indices, column indices). *)
Fixpoint nonzero_row (i j : nat) (row : list bool) : list (nat * nat) :=
  match row with
  | [] => []
  | b :: row' => (if b then [(i, j)] else []) ++ nonzero_row i (S j) row'
  end.

Fixpoint nonzero_from (i : nat) (a : list (list bool)) : list (nat * nat) :=
  match a with
  | [] => []
  | row :: a' => nonzero_row i 0 row ++ nonzero_from (S i) a'
  end.

Definition nonzero (a : list (list bool)) : list nat * list nat :=
  let hits := nonzero_from 0 a in (hits.*1, hits.*2).

(** [np.tril_indices(n)] is [nonzero(tri(n, n))]. *)
Definition tril_indices (n : nat) : list nat * list nat := nonzero (tri n n).

Section float_arrays.
Context `{Float64 F}.

(** [np.zeros(n)], [np.zeros((n, m))], [np.eye(n)] *)
Definition zeros (n : nat) : list F := replicate n f0.
Definition zeros2 (n m : nat) : list (list F) := replicate n (zeros m).
Definition eye (n : nat) : list (list F) :=
  (λ i, (λ j, if decide (i = j) then f1 else f0) <$> seq 0 n) <$> seq 0 n.

(** [x - y] on 1-D arrays, with numpy's broadcasting of a one-entry
    operand. *)
Definition subtract (x y : list F) : result (list F) :=
  if decide (length x = length y) then Ok (zip_with fsub x y)
  else match x, y with
       | [a], _ => Ok (fsub a <$> y)
       | _, [b] => Ok ((λ a, fsub a b) <$> x)
       | _, _ => Raise ValueError
       end.

(** [a * s] for a 2-D array and a scalar. *)
Definition scale (a : list (list F)) (s : F) : list (list F) :=
  (λ row : list F, (λ v, fmul v s) <$> row) <$> a.

(** [x.dot(y)] of two 1-D arrays; the products are accumulated from
    [0.0] in index order. *)
Definition dot11 (x y : list F) : result F :=
  if decide (length x = length y) then Ok (foldl fadd f0 (zip_with fmul x y))
  else Raise ValueError.

(** [x.dot(m)] of a 1-D and a 2-D array: entry [j] accumulates
    [x[i] * m[i, j]] over the rows [i]. *)
Definition dot12 (x : list F) (m : list (list F)) : result (list F) :=
  if decide (length x = length m) then
    Ok (foldl (λ acc '(xi, row), zip_with fadd acc (fmul xi <$> row))
              (zeros (ncols m)) (zip x m))
  else Raise ValueError.
End float_arrays.
End Np.

(** ** The parameter codec *)

Section codec.
Context `{Float64 F}.

(** Pack the mean and the covariance into a 1-dimensional array.
    [pack_body] is one pass of the loop. *)
Definition pack_body (dim : nat) (cov : list (list F)) (params : list F)
    (pij : nat * nat * nat) : result (list F) :=
  let '(p, i, j) := pij in
  v ← Np.getitem2 cov i j; Np.setitem params (dim + p) v.

Definition _pack_params (dim : nat) (mean : list F) (cov : list (list F))
    : result (list F) :=
  let params := Np.zeros (dim + dim * (dim + 1) / 2) in
  params ← Np.setslice_to params dim mean;
  let '(rows, cols) := Np.tril_indices dim in
  for_each (pack_body dim cov)
           (Np.zip3 (Np.range (dim * (dim + 1) / 2)) rows cols) params.

(** Unpack the mean and the covariance from a 1-dimensional array.
    [unpack_body] is one pass of the loop. *)
Definition unpack_body (cov : list (list F)) (vij : F * nat * nat)
    : result (list (list F)) :=
  let '(v, i, j) := vij in
  cov ← Np.setitem2 cov i j v; Np.setitem2 cov j i v.

Definition _unpack_params (dim : nat) (params : list F)
    : result (list F * list (list F)) :=
  let mean := take dim params in
  let cov := Np.zeros2 dim dim in
  let '(rows, cols) := Np.tril_indices dim in
  cov ← for_each unpack_body (Np.zip3 (drop dim params) rows cols) cov;
  Ok (mean, cov).
End codec.

(** ** The marginal likelihood and the driver *)

Section estimator.
Context `{Float64 F, Linalg F, Optimize F}.

(** Probability density function of multivariate normal distribution. *)
Definition _pdf_normal (x mean : list F) (cov : list (list F)) : result F :=
  xshift ← Np.subtract x mean;
  let t1 := fpow (fmul (of_int 2) fpi)
                 (fmul (fneg fhalf) (of_int (Z.of_nat (length x)))) in
  d ← linalg_det cov;
  let t2 := fpow d (fneg fhalf) in
  ci ← linalg_inv cov;
  y ← Np.dot12 xshift ci;
  q ← Np.dot11 y xshift;
  let t3 := fmul (fneg fhalf) q in
  Ok (fmul (fmul t1 t2) (fexp t3)).

(** Log likelihood function. *)
Definition _log_likelihood (x mean : list F) (cov : list (list F))
    : result F :=
  p ← _pdf_normal x mean cov; Ok (flog p).

(** One pass of the loop of [_obj_func]: the term of the row [x] is added
    to [objval]. *)
Definition obj_body (mean : list F) (cov : list (list F)) (objval : F)
    (x : list F) : result F :=
  let obs := (λ v, negb (isnan v)) <$> x in
  xo ← Np.getmask x obs;
  mo ← Np.getmask mean obs;
  co ← Np.getmask cov obs;
  coo ← Np.getmask_cols co obs;
  ll ← _log_likelihood xo mo coo;
  Ok (fadd objval ll).

Definition _obj_func (params : list F) (dim : nat) (data : list (list F))
    : result F :=
  '(mean, cov) ← _unpack_params dim params;
  objval ← for_each (obj_body mean cov) data f0;
  Ok (fneg objval).

(** [size / (size - 1.0)]: [size] is an [int] and the divisor a Python
    [float], so this is Python's division, which raises on a divisor equal
    to [0.0]; [size - 1.0] is [0.0] exactly when [size] is [1]. *)
Definition size_ratio (size : nat) : result F :=
  if decide (size = 1) then Raise ZeroDivisionError
  else Ok (fdiv (of_int (Z.of_nat size)) (fsub (of_int (Z.of_nat size)) f1)).

Definition fiml (data : list (list F)) (bias : bool)
    : result (list F * list (list F)) :=
  let '(size, dim) := Np.shape data in
  let mean0 := Np.zeros dim in
  let cov0 := Np.eye dim in
  params0 ← _pack_params dim mean0 cov0;
  res ← optimize_fmin (λ params, _obj_func params dim data) params0;
  '(mean, cov) ← _unpack_params dim res;
  cov ← (if negb bias
         then ratio ← size_ratio size; Ok (Np.scale cov ratio)
         else Ok cov);
  Ok (mean, cov).
End estimator.

(** ** Vocabulary of the specification *)

(** The pairs [(i, j)] with [i] from [0] to [n - 1] and, for each [i], [j]
    from [0] to [i], in that nested order. *)
Definition tril_pairs (n : nat) : list (nat * nat) :=
  i ← seq 0 n; (λ j, (i, j)) <$> seq 0 (S i).

(** Entry [(i, j)] of a 2-D array, when there is one. *)
Definition lookup2 {A : Type} (a : list (list A)) (i j : nat) : option A :=
  a !! i ≫= (λ row, row !! j).

(** An [n] by [m] array. *)
Definition is_matrix {A : Type} (n m : nat) (a : list (list A)) : Prop :=
  length a = n ∧ Forall (λ row, length row = m) a.

(** [a[i, j] == a[j, i]] for all indices. *)
Definition symmetric {A : Type} (a : list (list A)) : Prop :=
  ∀ i j, Np.getitem2 a i j = Np.getitem2 a j i.

(** The value that a run of the assignments [cov[i, j] = v; cov[j, i] = v]
    over the triples [ts] leaves at [(a, b)]: that of the last triple that
    touches it, if any. *)
Fixpoint written {A : Type} (ts : list (A * nat * nat)) (a b : nat)
    : option A :=
  match ts with
  | [] => None
  | (v, i, j) :: ts' =>
      match written ts' a b with
      | Some w => Some w
      | None =>
          if decide ((i, j) = (a, b) ∨ (j, i) = (a, b)) then Some v else None
      end
  end.

(** The rows of the objective, as the specification words them. *)

Section objective_spec.
Context `{Float64 F, Linalg F}.

(** The observation mask of a row, and the indices it selects. *)
Definition obs_mask (x : list F) : list bool := (λ v, negb (isnan v)) <$> x.

Definition observed_from (k : nat) (x : list F) : list nat :=
  (filter (λ iv, isnan iv.2 = false) (zip (seq k (length x)) x)).*1.

Definition observed (x : list F) : list nat := observed_from 0 x.

(** The entries of [a] at the indices [idx], and the rows and columns of a
    2-D array at those indices. *)
Definition at_indices {A : Type} (a : list A) (idx : list nat)
    : result (list A) :=
  mapM_result (Np.getitem a) idx.

Definition submatrix {A : Type} (a : list (list A)) (idx : list nat)
    : result (list (list A)) :=
  mapM_result (λ i, mapM_result (Np.getitem2 a i) idx) idx.

(** The marginal log-density of the observed coordinates of one row. *)
Definition marginal_log_density (mean : list F) (cov : list (list F))
    (x : list F) : result F :=
  let idx := observed x in
  xo ← at_indices x idx;
  mo ← at_indices mean idx;
  co ← submatrix cov idx;
  _log_likelihood xo mo co.

(** The negative of the sum of the marginal log-densities of the rows, the
    sum accumulated from [0.0] in the order of the rows. *)
Definition neg_sum_marginals (params : list F) (dim : nat)
    (data : list (list F)) : result F :=
  '(mean, cov) ← _unpack_params dim params;
  terms ← mapM_result (marginal_log_density mean cov) data;
  Ok (fneg (foldl fadd f0 terms)).

(** [size / (size - 1.0)] *)
Definition bias_correction (size : nat) : F :=
  fdiv (of_int (Z.of_nat size)) (fsub (of_int (Z.of_nat size)) f1).
End objective_spec.

(** ** The density with numpy's operations *)

Section density_spec.
Context `{Float64 F}.




End density_spec.

(** ** Two readings of the scalar interface

    [real_float]: the finite [float64] values read as real numbers,
    rounding left out.  A real number is never [nan].

    [nan_float]: the same with [nan], written [None], which every
    operation propagates; this is the reading of a dataset with missing
    values.

    Both leave out rounding, underflow, overflow and the infinities, and
    their power and logarithm are those of the reals: they agree with
    [float64] only where every operation involved is exact.  The
    statements about them keep to the empty observation, whose values are
    [1.0] and [0.0]; elsewhere they serve as concrete arrays at which the
    statements over every implementation are instantiated. *)

#[global] Instance real_float : Float64 R := {|
  f0 := 0%R;
  f1 := 1%R;
  fhalf := (1 / 2)%R;
  fpi := PI;
  of_int := IZR;
  fadd := Rplus;
  fsub := Rminus;
  fmul := Rmult;
  fdiv := Rdiv;
  fneg := Ropp;
  fpow := Rpower;
  fexp := exp;
  flog := ln;
  isnan := λ _, false;
|}.

Definition lift1 (f : R → R) (a : option R) : option R := f <$> a.

Definition lift2 (f : R → R → R) (a b : option R) : option R :=
  x ← a; y ← b; Some (f x y).

#[global] Instance nan_float : Float64 (option R) := {|
  f0 := Some 0%R;
  f1 := Some 1%R;
  fhalf := Some (1 / 2)%R;
  fpi := Some PI;
  of_int := λ z, Some (IZR z);
  fadd := lift2 Rplus;
  fsub := lift2 Rminus;
  fmul := lift2 Rmult;
  fdiv := lift2 Rdiv;
  fneg := lift1 Ropp;
  fpow := lift2 Rpower;
  fexp := lift1 exp;
  flog := lift1 ln;
  isnan := λ a, if a is None then true else false;
|}.

(** A linear-algebra collaborator for arrays of up to two rows, by the
    closed formulas; [inv] refuses a singular array as numpy does. *)
Definition small_det (a : list (list R)) : result R :=
  match a with
  | [] => Ok 1%R
  | [[x]] => Ok x
  | [[x; y]; [z; w]] => Ok (x * w - y * z)%R
  | _ => Raise LinAlgError
  end.

Definition small_inv (a : list (list R)) : result (list (list R)) :=
  match a with
  | [] => Ok []
  | [[x]] => if Req_dec_T x 0 then Raise LinAlgError else Ok [[(1 / x)%R]]
  | [[x; y]; [z; w]] =>
      let d := (x * w - y * z)%R in
      if Req_dec_T d 0 then Raise LinAlgError
      else Ok [[(w / d)%R; (- y / d)%R]; [(- z / d)%R; (x / d)%R]]
  | _ => Raise LinAlgError
  end.

Definition small_linalg : Linalg R :=
  {| linalg_det := small_det; linalg_inv := small_inv |}.

(** The same collaborator on arrays that may hold [nan]: an array with a
    [nan] entry has the determinant [nan] and an inverse of [nan]s. *)
Definition finite_matrix (a : list (list (option R))) : option (list (list R)) :=
  mapM (mapM (λ v : option R, v)) a.

Definition nan_small_linalg : Linalg (option R) := {|
  linalg_det := λ a,
    match finite_matrix a with
    | Some r => Some <$> small_det r
    | None => Ok None
    end;
  linalg_inv := λ a,
    match finite_matrix a with
    | Some r => fmap (M := list) (fmap (M := list) Some) <$> small_inv r
    | None => Ok (fmap (M := list) (fmap (M := list) (λ _, None)) a)
    end;
|}.

(** An optimizer that gives back its starting point, and one that gives
    the same vector wherever it starts. *)
Definition idle_fmin : Optimize R :=
  {| optimize_fmin := λ _ x0, Ok x0 |}.

Definition constant_fmin (xopt : list R) : Optimize R :=
  {| optimize_fmin := λ _ _, Ok xopt |}.
(** ** The lower-triangle enumeration *)

Section tril.
Lemma nonzero_row_tri (i j0 m : nat) :
  Np.nonzero_row i j0 ((λ j, bool_decide (j ≤ i)) <$> seq j0 m)
  = (λ j, (i, j)) <$> seq j0 ((j0 + m) `min` S i - j0).
Proof.
  revert j0; induction m as [|m IH]; intros j0; simpl.
  { by replace ((j0 + 0) `min` S i - j0) with 0 by lia. }
  rewrite IH. case_bool_decide.
  - replace ((j0 + S m) `min` S i - j0)
      with (S ((S j0 + m) `min` S i - S j0)) by lia.
    done.
  - replace ((j0 + S m) `min` S i - j0) with 0 by lia.
    by replace ((S j0 + m) `min` S i - S j0) with 0 by lia.
Qed.

Lemma nonzero_from_tri (i0 k m : nat) :
  i0 + k ≤ m →
  Np.nonzero_from i0 ((λ i, (λ j, bool_decide (j ≤ i)) <$> seq 0 m) <$> seq i0 k)
  = i ← seq i0 k; (λ j, (i, j)) <$> seq 0 (S i).
Proof.
  revert i0; induction k as [|k IH]; intros i0 Hle; simpl; [done|].
  rewrite IH by lia. rewrite nonzero_row_tri.
  by replace ((0 + m) `min` S i0 - 0) with (S i0) by lia.
Qed.

Lemma tril_indices_pairs (n : nat) :
  Np.tril_indices n = ((tril_pairs n).*1, (tril_pairs n).*2).
Proof.
  unfold Np.tril_indices, Np.nonzero, Np.tri.
  by rewrite nonzero_from_tri by lia.
Qed.

Lemma bind_seq_S {B : Type} (f : nat → list B) (n : nat) :
  (seq 0 (S n) ≫= f) = (seq 0 n ≫= f) ++ f n.
Proof. rewrite seq_S, bind_app. simpl. by rewrite app_nil_r. Qed.

Lemma tril_pairs_S (n : nat) :
  tril_pairs (S n) = tril_pairs n ++ ((λ j, (n, j)) <$> seq 0 (S n)).
Proof. unfold tril_pairs. by rewrite bind_seq_S. Qed.

Lemma tril_pairs_length_double (n : nat) :
  2 * length (tril_pairs n) = n * (n + 1).
Proof.
  induction n as [|n IH]; [done|].
  rewrite tril_pairs_S, length_app, length_fmap, length_seq. lia.
Qed.

Lemma tril_pairs_length (n : nat) :
  length (tril_pairs n) = n * (n + 1) / 2.
Proof.
  apply Nat.div_unique_exact; [done|].
  by rewrite tril_pairs_length_double.
Qed.

Lemma elem_of_tril_pairs (n i j : nat) :
  (i, j) ∈ tril_pairs n ↔ j ≤ i ∧ i < n.
Proof.
  unfold tril_pairs. rewrite list_elem_of_bind. split.
  - intros (i' & Hj & Hi). apply list_elem_of_fmap in Hj as (j' & [= -> ->] & Hj).
    apply elem_of_seq in Hj, Hi. lia.
  - intros [Hj Hi]. exists i. split.
    + apply list_elem_of_fmap. exists j. split; [done|]. apply elem_of_seq. lia.
    + apply elem_of_seq. lia.
Qed.

Lemma tril_pairs_NoDup (n : nat) : NoDup (tril_pairs n).
Proof.
  induction n as [|n IH]; [constructor|].
  rewrite tril_pairs_S. apply NoDup_app. split_and!; [done| |].
  - intros [i j] Hin Hin'. apply elem_of_tril_pairs in Hin.
    apply list_elem_of_fmap in Hin' as (j' & [= -> ->] & _). lia.
  - apply NoDup_fmap_2; [|apply NoDup_seq]. by intros ?? [=].
Qed.
End tril.

(** ** Arrays *)

Lemma getitem_Ok {A : Type} (l : list A) (i : nat) (v : A) :
  l !! i = Some v → Np.getitem l i = Ok v.
Proof. unfold Np.getitem. by intros ->. Qed.

Lemma getitem_None {A : Type} (l : list A) (i : nat) :
  l !! i = None → Np.getitem l i = Raise IndexError.
Proof. unfold Np.getitem. by intros ->. Qed.

Lemma setitem_Ok {A : Type} (l : list A) (i : nat) (v : A) :
  i < length l → Np.setitem l i v = Ok (<[i := v]> l).
Proof. intros Hi. unfold Np.setitem. by rewrite decide_True. Qed.

Section arrays.
Context {A : Type}.
Implicit Types (a : list (list A)) (l : list A).

Lemma getitem2_lookup2 a i j :
  Np.getitem2 a i j
  = match lookup2 a i j with Some v => Ok v | None => Raise IndexError end.
Proof.
  unfold Np.getitem2, lookup2, Np.getitem.
  destruct (a !! i) as [row|]; simpl; [|done]. by destruct (row !! j).
Qed.

Lemma lookup2_Some a i j v :
  lookup2 a i j = Some v ↔ ∃ row, a !! i = Some row ∧ row !! j = Some v.
Proof.
  unfold lookup2. destruct (a !! i) as [row|]; simpl.
  - split; [by exists row|]. by intros (? & [= <-] & ?).
  - split; [done|]. by intros (? & [=] & _).
Qed.

Lemma lookup2_is_Some n m a i j :
  is_matrix n m a → is_Some (lookup2 a i j) ↔ i < n ∧ j < m.
Proof.
  intros [Hn Hm]. unfold lookup2. destruct (a !! i) as [row|] eqn:Hrow; simpl.
  - rewrite lookup_lt_is_Some.
    rewrite (Forall_lookup_1 _ _ _ _ Hm Hrow : length row = m).
    apply lookup_lt_Some in Hrow. lia.
  - apply lookup_ge_None in Hrow. split; [by intros [? [=]]|lia].
Qed.

Lemma matrix_ext n m a b :
  is_matrix n m a → is_matrix n m b →
  (∀ i j, i < n → j < m → lookup2 a i j = lookup2 b i j) → a = b.
Proof.
  intros [Han Ham] [Hbn Hbm] Heq.
  apply list_eq_same_length with n; [done..|].
  intros i ra rb Hi Hra Hrb.
  apply list_eq_same_length with m.
  - exact (Forall_lookup_1 _ _ _ _ Hbm Hrb).
  - exact (Forall_lookup_1 _ _ _ _ Ham Hra).
  - intros j va vb Hj Hva Hvb.
    specialize (Heq i j Hi Hj). unfold lookup2 in Heq.
    rewrite Hra, Hrb in Heq; simpl in Heq. congruence.
Qed.

(** [a[i, j] = v] inside the bounds: it succeeds, keeps the shape and
    changes that entry only. *)
Lemma setitem2_spec n m a i j v :
  is_matrix n m a → i < n → j < m →
  ∃ a', Np.setitem2 a i j v = Ok a' ∧ is_matrix n m a' ∧
    ∀ i' j', lookup2 a' i' j'
             = if decide (i' = i ∧ j' = j) then Some v else lookup2 a i' j'.
Proof.
  intros [Hn Hm] Hi Hj.
  destruct (lookup_lt_is_Some_2 a i) as [row Hrow]; [lia|].
  assert (length row = m) as Hlen by exact (Forall_lookup_1 _ _ _ _ Hm Hrow).
  exists (<[i := <[j := v]> row]> a). split; [|split; [split|]].
  - unfold Np.setitem2. rewrite (getitem_Ok _ _ _ Hrow); simpl.
    rewrite setitem_Ok by lia; simpl. apply setitem_Ok. lia.
  - by rewrite length_insert.
  - apply Forall_insert; [done|]. by rewrite length_insert.
  - intros i' j'. unfold lookup2. case_decide as Hd.
    + destruct Hd as [-> ->].
      rewrite list_lookup_insert_eq by lia; simpl.
      apply list_lookup_insert_eq. lia.
    + destruct (decide (i' = i)) as [->|Hne].
      * rewrite list_lookup_insert_eq by lia; simpl. rewrite Hrow; simpl.
        apply list_lookup_insert_ne. naive_solver.
      * by rewrite list_lookup_insert_ne.
Qed.
End arrays.

(** ** The loops of the codec *)

Lemma zip3_pairs {X : Type} (xs : list X) (ps : list (nat * nat)) :
  Np.zip3 xs (ps.*1) (ps.*2) = (λ xp, (xp.1, xp.2.1, xp.2.2)) <$> zip xs ps.
Proof.
  unfold Np.zip3. revert xs; induction ps as [|[i j] ps IH]; intros [|x xs];
    simpl; try done.
  by rewrite IH.
Qed.

Lemma zip3_cons {X : Type} (x : X) xs (ij : nat * nat) ps :
  Np.zip3 (x :: xs) ((ij :: ps).*1) ((ij :: ps).*2)
  = (x, ij.1, ij.2) :: Np.zip3 xs (ps.*1) (ps.*2).
Proof. done. Qed.

Lemma zip3_nil_l {X : Type} (ps : list (nat * nat)) :
  Np.zip3 (@nil X) (ps.*1) (ps.*2) = [].
Proof. done. Qed.

(** Case analysis on which of two positions an assignment touches. *)
Ltac solve_hit :=
  repeat case_decide; try done; exfalso;
  repeat match goal with
         | H : _ ∨ _ |- _ => destruct H
         | H : _ ∧ _ |- _ => destruct H
         | H : (_, _) = (_, _) |- _ => injection H as ? ?
         end;
  subst;
  match goal with H : ¬ _ |- _ => by (apply H; auto) end.

Section written.
Context {A : Type}.
Implicit Types (ts : list (A * nat * nat)) (vs : list A)
  (ps : list (nat * nat)).

Lemma written_swap ts a b : written ts a b = written ts b a.
Proof.
  induction ts as [|[[v i] j] ts IH]; simpl; [done|].
  rewrite IH. destruct (written ts b a); [done|].
  solve_hit.
Qed.

Lemma written_untouched vs ps a b :
  (a, b) ∉ ps → (b, a) ∉ ps → written (Np.zip3 vs (ps.*1) (ps.*2)) a b = None.
Proof.
  revert vs; induction ps as [|[i j] ps IH]; intros [|v vs] Hab Hba;
    try done.
  apply not_elem_of_cons in Hab as [? ?], Hba as [? ?].
  rewrite zip3_cons; cbn [written fst snd].
  rewrite IH by done. rewrite decide_False; [done|]. intuition congruence.
Qed.

(** Over distinct lower-triangle positions no assignment is overwritten:
    the position number [p] keeps the [p]-th value. *)
Lemma written_tril vs ps p i j :
  NoDup ps → Forall (λ ij, ij.2 ≤ ij.1) ps → ps !! p = Some (i, j) →
  written (Np.zip3 vs (ps.*1) (ps.*2)) i j = vs !! p.
Proof.
  revert vs p; induction ps as [|[i0 j0] ps IH]; intros vs p Hnd Hlow Hp;
    [done|].
  apply NoDup_cons in Hnd as [Hnotin Hnd]. apply Forall_cons in Hlow as [Hl0 Hlow].
  simpl in Hl0. destruct vs as [|v vs]; [by destruct p|].
  rewrite zip3_cons; cbn [written fst snd].
  destruct p as [|p]; simpl in Hp |- *.
  - injection Hp as -> ->. rewrite written_untouched; [|done|].
    + by rewrite decide_True by auto.
    + intros Hin. assert (i = j) as ->; [|done].
      rewrite Forall_forall in Hlow. apply Hlow in Hin. simpl in Hin. lia.
  - rewrite (IH vs p) by done. destruct (vs !! p) as [w|]; [done|].
    rewrite decide_False; [done|]. intros [[= -> ->]|[= -> ->]].
    + apply Hnotin. by eapply list_elem_of_lookup_2.
    + assert (i = j) as ->; [|apply Hnotin; by eapply list_elem_of_lookup_2].
      rewrite Forall_lookup in Hlow. apply Hlow in Hp. simpl in Hp. lia.
Qed.

(** When every triple carries the entry of a symmetric array [c] at its
    position, whatever was written agrees with [c]. *)
Lemma written_agrees (c : list (list A)) ts a b w :
  (∀ i j, lookup2 c i j = lookup2 c j i) →
  Forall (λ vij, lookup2 c vij.1.2 vij.2 = Some vij.1.1) ts →
  written ts a b = Some w → lookup2 c a b = Some w.
Proof.
  intros Hsym. induction 1 as [|[[v i] j] ts Hv _ IH]; simpl; [done|].
  destruct (written ts a b); [done|]. simpl in Hv.
  case_decide as Hd; [|done]. intros [= <-].
  destruct Hd as [[= <- <-]|[= <- <-]]; [done|]. by rewrite Hsym.
Qed.

Lemma written_covered vs ps a b :
  length ps ≤ length vs → (a, b) ∈ ps ∨ (b, a) ∈ ps →
  is_Some (written (Np.zip3 vs (ps.*1) (ps.*2)) a b).
Proof.
  revert vs; induction ps as [|[i j] ps IH]; intros vs Hlen Hin.
  { destruct Hin as [Hin|Hin]; by apply elem_of_nil in Hin. }
  destruct vs as [|v vs]; simpl in Hlen; [lia|].
  rewrite zip3_cons; cbn [written fst snd].
  destruct (decide ((i, j) = (a, b) ∨ (j, i) = (a, b))) as [Hd|Hd].
  - by destruct (written _ a b).
  - destruct (IH vs) as [w ->]; [lia| |done].
    rewrite !elem_of_cons in Hin. intuition congruence.
Qed.
End written.

Section codec_loops.
Context `{Float64 F}.
Implicit Types (c cov : list (list F)) (params mean vs : list F)
  (ps : list (nat * nat)).

Lemma zeros_length n : length (Np.zeros n : list F) = n.
Proof. apply length_replicate. Qed.

Lemma zeros2_is_matrix n m : is_matrix n m (Np.zeros2 n m : list (list F)).
Proof.
  split; [apply length_replicate|].
  apply Forall_replicate, zeros_length.
Qed.

Lemma lookup2_zeros2 n m i j :
  lookup2 (Np.zeros2 n m : list (list F)) i j
  = if decide (i < n ∧ j < m) then Some f0 else None.
Proof.
  unfold lookup2, Np.zeros2, Np.zeros. case_decide as Hd.
  - destruct Hd. rewrite lookup_replicate_2 by done; simpl.
    by apply lookup_replicate_2.
  - destruct (decide (i < n)).
    + rewrite lookup_replicate_2 by done; simpl.
      apply lookup_replicate_None. lia.
    + by rewrite (proj1 (lookup_replicate_None n _ i)) by lia.
Qed.

(** The loop of [_unpack_params] never raises: its positions are inside
    the array.  Each entry ends with the last value written to it. *)
Lemma unpack_loop dim (ts : list (F * nat * nat)) c0 :
  is_matrix dim dim c0 →
  Forall (λ vij, vij.1.2 < dim ∧ vij.2 < dim) ts →
  ∃ c, for_each unpack_body ts c0 = Ok c ∧ is_matrix dim dim c ∧
    ∀ a b, lookup2 c a b
           = match written ts a b with
             | Some w => Some w
             | None => lookup2 c0 a b
             end.
Proof.
  intros Hc0 Hts. revert c0 Hc0.
  induction Hts as [|[[v i] j] ts [Hi Hj] _ IH]; intros c0 Hc0.
  { by exists c0. }
  simpl in Hi, Hj.
  destruct (setitem2_spec dim dim c0 i j v) as (c1 & E1 & Hc1 & L1); [done..|].
  destruct (setitem2_spec dim dim c1 j i v) as (c2 & E2 & Hc2 & L2); [done..|].
  destruct (IH c2 Hc2) as (c & Ec & Hc & Lc).
  exists c. split; [|split; [done|]].
  - cbn [for_each unpack_body]. rewrite E1; simpl. by rewrite E2.
  - intros a b. rewrite Lc. cbn [written].
    destruct (written ts a b); [done|]. rewrite L2, L1.
    solve_hit.
Qed.

Lemma tril_triples_bounds dim vs :
  Forall (λ vij : F * nat * nat, vij.1.2 < dim ∧ vij.2 < dim)
         (Np.zip3 vs ((tril_pairs dim).*1) ((tril_pairs dim).*2)).
Proof.
  rewrite zip3_pairs. apply Forall_fmap, Forall_forall.
  intros [v [i j]] Hin. apply elem_of_zip_r in Hin.
  apply elem_of_tril_pairs in Hin. simpl. lia.
Qed.

Lemma tril_pairs_lower dim : Forall (λ ij, ij.2 ≤ ij.1) (tril_pairs dim).
Proof.
  apply Forall_forall. intros [i j] Hin.
  apply elem_of_tril_pairs in Hin. simpl. lia.
Qed.

(** What [_unpack_params] returns, for every input. *)
Lemma unpack_params_spec dim params :
  ∃ cov, _unpack_params dim params = Ok (take dim params, cov) ∧
    is_matrix dim dim cov ∧
    ∀ a b, lookup2 cov a b
           = match written (Np.zip3 (drop dim params) ((tril_pairs dim).*1)
                                    ((tril_pairs dim).*2)) a b with
             | Some w => Some w
             | None => if decide (a < dim ∧ b < dim) then Some f0 else None
             end.
Proof.
  unfold _unpack_params. rewrite tril_indices_pairs.
  destruct (unpack_loop dim
              (Np.zip3 (drop dim params) ((tril_pairs dim).*1)
                       ((tril_pairs dim).*2))
              (Np.zeros2 dim dim)) as (cov & E & Hcov & L).
  { apply zeros2_is_matrix. }
  { apply tril_triples_bounds. }
  exists cov. rewrite E. split; [done|]. split; [done|].
  intros a b. by rewrite L, lookup2_zeros2.
Qed.

(** The loop of [_pack_params] fills the slots after [pre] in order. *)
Lemma pack_loop dim cov ps vals k pre zs :
  Forall2 (λ ij v, lookup2 cov ij.1 ij.2 = Some v) ps vals →
  length pre = dim + k → length ps ≤ length zs →
  for_each (pack_body dim cov)
           (Np.zip3 (seq k (length ps)) (ps.*1) (ps.*2)) (pre ++ zs)
  = Ok (pre ++ vals ++ drop (length ps) zs).
Proof.
  intros Hvals. revert k pre zs.
  induction Hvals as [|[i j] v ps vals Hv _ IH]; intros k pre zs Hpre Hzs.
  { done. }
  destruct zs as [|z zs]; simpl in Hzs; [lia|].
  cbn [length seq]. rewrite zip3_cons. cbn [for_each pack_body fst snd].
  rewrite getitem2_lookup2. simpl in Hv. rewrite Hv; simpl.
  rewrite setitem_Ok by (rewrite length_app; simpl; lia). simpl.
  rewrite <-Hpre, insert_app_r_alt, Nat.sub_diag by lia. simpl.
  rewrite (cons_middle v pre zs), app_assoc.
  rewrite IH; [|rewrite length_app; simpl; lia|lia].
  by rewrite <-app_assoc.
Qed.
End codec_loops.

(** ** The codec *)

Section codec_spec.
Context `{Float64 F}.
Implicit Types (c cov : list (list F)) (params mean vs : list F).

Lemma symmetric_lookup2 cov :
  symmetric cov ↔ ∀ i j, lookup2 cov i j = lookup2 cov j i.
Proof.
  unfold symmetric. split; intros Hs i j; specialize (Hs i j).
  - rewrite !getitem2_lookup2 in Hs.
    destruct (lookup2 cov i j), (lookup2 cov j i); congruence.
  - by rewrite !getitem2_lookup2, Hs.
Qed.

(** The entries of the lower triangle, in the order of [tril_pairs]. *)
Lemma tril_values_exist dim cov :
  is_matrix dim dim cov →
  ∃ vals, Forall2 (λ ij v, lookup2 cov ij.1 ij.2 = Some v)
                  (tril_pairs dim) vals.
Proof.
  intros Hcov.
  assert (Forall (λ ij, is_Some (lookup2 cov ij.1 ij.2)) (tril_pairs dim))
    as Hall.
  { apply Forall_forall. intros [i j] Hin. apply elem_of_tril_pairs in Hin.
    apply (lookup2_is_Some dim dim); [done|]. simpl. lia. }
  induction Hall as [|ij ps [v Hv] _ [vals IH]]; [by exists []|].
  exists (v :: vals). by constructor.
Qed.

Lemma pack_params_values dim mean cov vals :
  length mean = dim →
  Forall2 (λ ij v, lookup2 cov ij.1 ij.2 = Some v) (tril_pairs dim) vals →
  _pack_params dim mean cov = Ok (mean ++ vals).
Proof.
  intros Hmean Hvals. unfold _pack_params, Np.setslice_to, Np.range.
  rewrite zeros_length, Nat.min_l by lia.
  rewrite decide_True by done. cbn [mbind result_bind].
  unfold Np.zeros. rewrite drop_replicate_add, tril_indices_pairs.
  rewrite <-tril_pairs_length.
  rewrite (pack_loop dim cov (tril_pairs dim) vals 0 mean); [|done|lia|].
  - by rewrite drop_ge, app_nil_r by (rewrite length_replicate; lia).
  - by rewrite length_replicate.
Qed.

(** Whatever the arguments, a vector that [_pack_params] returns has the
    length it was allocated with. *)
Lemma pack_loop_length dim cov ts params params' :
  for_each (pack_body dim cov) ts params = Ok params' →
  length params' = length params.
Proof.
  revert params; induction ts as [|[[p i] j] ts IH]; intros params; simpl.
  { by intros [= ->]. }
  destruct (Np.getitem2 cov i j) as [v|]; [|done]. simpl.
  unfold Np.setitem. case_decide; [|done]. simpl.
  intros E. apply IH in E. by rewrite length_insert in E.
Qed.

Lemma pack_params_length dim mean cov params :
  _pack_params dim mean cov = Ok params →
  length params = dim + dim * (dim + 1) / 2.
Proof.
  unfold _pack_params.
  destruct (Np.setslice_to _ dim mean) as [params0|] eqn:E0; [|done].
  simpl. destruct (Np.tril_indices dim) as [rows cols].
  intros E. apply pack_loop_length in E. rewrite E. clear E.
  revert E0. unfold Np.setslice_to. rewrite zeros_length.
  rewrite Nat.min_l by lia. case_decide as Hlen.
  - intros [= <-]. rewrite length_app, length_drop, zeros_length. lia.
  - destruct mean as [|v [|]]; try done. intros [= <-].
    rewrite length_app, length_drop, length_replicate, zeros_length. lia.
Qed.

Lemma tril_pairs_fmap {B : Type} (f : nat → nat → B) (n : nat) :
  (λ ij, f ij.1 ij.2) <$> tril_pairs n
  = i ← seq 0 n; j ← seq 0 (S i); [f i j].
Proof.
  unfold tril_pairs. generalize (seq 0 n) as l.
  induction l as [|i l IH]; [done|].
  cbn [mbind list_bind]. rewrite fmap_app. f_equal; [|exact IH].
  generalize (seq 0 (S i)) as l'. induction l' as [|j l' IH']; [done|].
  simpl. f_equal. exact IH'.
Qed.

(** The entry of the decoded covariance at the [p]-th position of the
    lower triangle. *)
Lemma unpack_params_tril dim params :
  ∃ cov, _unpack_params dim params = Ok (take dim params, cov) ∧
    is_matrix dim dim cov ∧ symmetric cov ∧
    ∀ p i j, tril_pairs dim !! p = Some (i, j) →
      lookup2 cov i j = Some (default f0 (drop dim params !! p)).
Proof.
  destruct (unpack_params_spec dim params) as (cov & E & Hcov & L).
  exists cov. split; [done|]. split; [done|]. split.
  - apply symmetric_lookup2. intros a b. rewrite !L, (written_swap _ a b).
    destruct (written _ b a); [done|].
    repeat case_decide; try done; exfalso; lia.
  - intros p i j Hp. rewrite L.
    rewrite (written_tril _ _ p) by
      (done || apply tril_pairs_NoDup || apply tril_pairs_lower).
    destruct (drop dim params !! p); [done|].
    apply list_elem_of_lookup_2, elem_of_tril_pairs in Hp.
    rewrite decide_True by lia. done.
Qed.
End codec_spec.

Section codec_claims.
Context `{Float64 F}.
Implicit Types (c cov : list (list F)) (params mean vs : list F).

(** C9.  The encoded vector starts with the mean, in the same order, and
    continues with the [dim * (dim + 1) / 2] entries [cov[i, j]] for [i]
    from [0] to [dim - 1] and, for each [i], [j] from [0] to [i], in
    that nested order.  (Symmetry of the covariance is not needed.) *)
Theorem pack_params_layout dim mean cov :
  length mean = dim → is_matrix dim dim cov →
  ∃ params, _pack_params dim mean cov = Ok params ∧
    take dim params = mean ∧
    length (drop dim params) = dim * (dim + 1) / 2 ∧
    Ok <$> drop dim params
    = i ← seq 0 dim; j ← seq 0 (S i); [Np.getitem2 cov i j].
Proof.
  intros Hmean Hcov.
  destruct (tril_values_exist dim cov Hcov) as [vals Hvals].
  exists (mean ++ vals). split; [by apply pack_params_values|].
  rewrite take_app_length', drop_app_length' by done.
  split; [done|]. split.
  - rewrite <-tril_pairs_length. symmetry. by eapply Forall2_length.
  - rewrite <-(tril_pairs_fmap (Np.getitem2 cov)).
    clear Hmean. induction Hvals as [|[i j] v ps vals Hv _ IH]; [done|].
    rewrite !fmap_cons. f_equal; [|exact IH].
    rewrite getitem2_lookup2. simpl in *. by rewrite Hv.
Qed.

(** C7.  For well-shaped arguments [_pack_params] returns a vector of
    length exactly [dim + dim * (dim + 1) / 2]; the integer division
    loses nothing, [dim * (dim + 1)] being even, and its quotient is the
    number of lower-triangle positions.  ([dim = 0] included.) *)
Theorem pack_params_length_exact dim mean cov :
  length mean = dim → is_matrix dim dim cov →
  ∃ params, _pack_params dim mean cov = Ok params ∧
    length params = dim + dim * (dim + 1) / 2 ∧
    2 * (dim * (dim + 1) / 2) = dim * (dim + 1) ∧
    dim * (dim + 1) / 2 = length (tril_pairs dim).
Proof.
  intros Hmean Hcov.
  destruct (tril_values_exist dim cov Hcov) as [vals Hvals].
  exists (mean ++ vals).
  assert (_pack_params dim mean cov = Ok (mean ++ vals)) as E
    by by apply pack_params_values.
  split; [done|]. split; [by apply pack_params_length in E|].
  rewrite <-tril_pairs_length. split; [|done].
  apply tril_pairs_length_double.
Qed.

(** C1.  Decoding the encoding of a length-[dim] mean and a symmetric
    [dim] by [dim] covariance gives back the same pair.  ([dim = 0]
    included.) *)
Theorem unpack_pack_roundtrip dim m C :
  length m = dim → is_matrix dim dim C → symmetric C →
  ∃ params, _pack_params dim m C = Ok params ∧
    _unpack_params dim params = Ok (m, C).
Proof.
  intros Hm HC Hsym. rewrite symmetric_lookup2 in Hsym.
  destruct (tril_values_exist dim C HC) as [vals Hvals].
  exists (m ++ vals). split; [by apply pack_params_values|].
  destruct (unpack_params_spec dim (m ++ vals)) as (cov & E & Hcov & L).
  rewrite E, take_app_length' by done. do 2 f_equal.
  apply (matrix_ext dim dim); [done..|]. intros a b Ha Hb.
  rewrite L, drop_app_length' by done.
  destruct (written_covered vals (tril_pairs dim) a b) as [w Hw].
  { apply Forall2_length in Hvals. lia. }
  { rewrite !elem_of_tril_pairs. lia. }
  rewrite Hw. symmetry. eapply written_agrees; [done| |done].
  rewrite zip3_pairs. apply Forall_fmap.
  clear -Hvals. apply Forall_forall. intros [v [i j]] Hin. simpl.
  apply list_elem_of_lookup_1 in Hin as [p Hp].
  apply lookup_zip_with_Some in Hp as (v' & ij & [= <- <-] & Hv & Hij).
  by destruct (Forall2_lookup_lr _ _ _ _ _ _ Hvals Hij Hv).
Qed.

(** C2.  The covariance decoded from a vector of the valid length is a
    [dim] by [dim] array and is symmetric: [cov[i, j] == cov[j, i]] for all
    indices.  Nothing is asked of the entries of the vector. *)
Theorem unpack_params_symmetric dim params :
  length params = dim + dim * (dim + 1) / 2 →
  ∃ mean cov, _unpack_params dim params = Ok (mean, cov) ∧
    is_matrix dim dim cov ∧
    ∀ i j, Np.getitem2 cov i j = Np.getitem2 cov j i.
Proof.
  intros _.
  destruct (unpack_params_tril dim params) as (cov & E & Hcov & Hs & _).
  by exists (take dim params), cov.
Qed.

(** C8, as the code has it.  [_unpack_params] checks no length: on every
    vector it returns, with the first [min dim (length params)] entries
    as the mean and a symmetric [dim] by [dim] covariance whose [p]-th
    lower-triangle entry is the [p]-th value after the mean when there is
    one and [0.0] when there is none; values beyond the lower triangle
    are ignored. *)
Theorem unpack_params_any_length dim params :
  ∃ mean cov, _unpack_params dim params = Ok (mean, cov) ∧
    mean = take dim params ∧ length mean = dim `min` length params ∧
    is_matrix dim dim cov ∧
    (∀ i j, Np.getitem2 cov i j = Np.getitem2 cov j i) ∧
    ∀ p i j, tril_pairs dim !! p = Some (i, j) →
      Np.getitem2 cov i j = Ok (default f0 (drop dim params !! p)).
Proof.
  destruct (unpack_params_tril dim params) as (cov & E & Hcov & Hs & L).
  exists (take dim params), cov. split_and!; try done.
  - apply length_take.
  - intros p i j Hp. by rewrite getitem2_lookup2, (L p i j Hp).
Qed.

(** C10.  Encoding the pair decoded from a vector of the valid length
    gives back the vector. *)
Theorem pack_unpack_roundtrip dim v :
  length v = dim + dim * (dim + 1) / 2 →
  ∃ m c, _unpack_params dim v = Ok (m, c) ∧ _pack_params dim m c = Ok v.
Proof.
  intros Hlen.
  destruct (unpack_params_tril dim v) as (cov & E & Hcov & _ & L).
  exists (take dim v), cov. split; [done|].
  rewrite <-(take_drop dim v) at 2.
  apply pack_params_values; [rewrite length_take; lia|].
  apply Forall2_same_length_lookup_2.
  { rewrite length_drop, tril_pairs_length. lia. }
  intros p [i j] w Hp Hw. simpl. by rewrite (L p i j Hp), Hw.
Qed.
End codec_claims.

(** The claims on the codec at concrete arrays of reals. *)

Lemma pack_params_layout_witness :
  ∃ params, _pack_params 2 [1; 2]%R [[3; 4]; [5; 6]]%R = Ok params ∧
    take 2 params = [1; 2]%R ∧
    length (drop 2 params) = 2 * (2 + 1) / 2 ∧
    Ok <$> drop 2 params
    = i ← seq 0 2; j ← seq 0 (S i); [Np.getitem2 [[3; 4]; [5; 6]]%R i j].
Proof.
  apply (pack_params_layout 2 [1; 2]%R [[3; 4]; [5; 6]]%R).
  - reflexivity.
  - split; [reflexivity|]. repeat constructor.
Defined.

Lemma pack_params_length_exact_witness :
  ∃ params, _pack_params 3 [1; 2; 3]%R [[1; 0; 0]; [0; 1; 0]; [0; 0; 1]]%R
            = Ok params ∧
    length params = 3 + 3 * (3 + 1) / 2 ∧
    2 * (3 * (3 + 1) / 2) = 3 * (3 + 1) ∧
    3 * (3 + 1) / 2 = length (tril_pairs 3).
Proof.
  apply (pack_params_length_exact 3 [1; 2; 3]%R
           [[1; 0; 0]; [0; 1; 0]; [0; 0; 1]]%R).
  - reflexivity.
  - split; [reflexivity|]. repeat constructor.
Defined.

Lemma unpack_pack_roundtrip_witness :
  symmetric [[3; 4]; [4; 6]]%R ∧
  ∃ params, _pack_params 2 [1; 2]%R [[3; 4]; [4; 6]]%R = Ok params ∧
    _unpack_params 2 params = Ok ([1; 2]%R, [[3; 4]; [4; 6]]%R).
Proof.
  assert (symmetric [[3; 4]; [4; 6]]%R) as Hsym.
  { intros i j. destruct i as [|[|i]], j as [|[|j]]; reflexivity. }
  split; [exact Hsym|].
  apply (unpack_pack_roundtrip 2 [1; 2]%R [[3; 4]; [4; 6]]%R).
  - reflexivity.
  - split; [reflexivity|]. repeat constructor.
  - exact Hsym.
Defined.

Lemma unpack_params_symmetric_witness :
  ∃ mean cov, _unpack_params 2 [1; 2; 3; 4; 6]%R = Ok (mean, cov) ∧
    is_matrix 2 2 cov ∧
    ∀ i j, Np.getitem2 cov i j = Np.getitem2 cov j i.
Proof.
  apply (unpack_params_symmetric 2 [1; 2; 3; 4; 6]%R). reflexivity.
Defined.

Lemma pack_unpack_roundtrip_witness :
  ∃ m c, _unpack_params 2 [1; 2; 3; 4; 6]%R = Ok (m, c) ∧
    _pack_params 2 m c = Ok [1; 2; 3; 4; 6]%R.
Proof.
  apply (pack_unpack_roundtrip 2 [1; 2; 3; 4; 6]%R). reflexivity.
Defined.

(** C8, as the specification has it, fails: a vector that is too short is
    decoded, not refused.  With [dim = 1] and no entry at all, the mean is
    empty and the covariance keeps its initial zero. *)
Lemma unpack_params_short_vector :
  length (@nil R) ≠ 1 + 1 * (1 + 1) / 2 ∧
  _unpack_params 1 (@nil R) = Ok ([], [[0%R]]).
Proof. split; [simpl; lia|reflexivity]. Qed.

(** A vector that is too long is decoded as well, its surplus ignored. *)
Lemma unpack_params_long_vector :
  length [1; 2; 3]%R ≠ 1 + 1 * (1 + 1) / 2 ∧
  _unpack_params 1 [1; 2; 3]%R = Ok ([1%R], [[2%R]]).
Proof. split; [simpl; lia|reflexivity]. Qed.

(** The decoded pairs at concrete vectors. *)
Example unpack_params_5 :
  _unpack_params 2 [1; 2; 3; 4; 6]%R = Ok ([1; 2]%R, [[3; 4]; [4; 6]]%R).
Proof. reflexivity. Qed.

Example pack_params_5 :
  _pack_params 2 [1; 2]%R [[3; 4]; [4; 6]]%R = Ok [1; 2; 3; 4; 6]%R.
Proof. reflexivity. Qed.

(** A one-entry mean is broadcast; a mean of another wrong length and a
    covariance that is too small are refused. *)
Example pack_params_broadcast :
  _pack_params 2 [7]%R [[3; 4]; [4; 6]]%R = Ok [7; 7; 3; 4; 6]%R.
Proof. reflexivity. Qed.

Example pack_params_bad_mean :
  _pack_params 2 [7; 8; 9]%R [[3; 4]; [4; 6]]%R = Raise ValueError.
Proof. reflexivity. Qed.

Example pack_params_bad_cov :
  _pack_params 2 [7; 8]%R [[3; 4]]%R = Raise IndexError.
Proof. reflexivity. Qed.

(** ** The objective *)

Lemma result_bind_Ok {X Y : Type} (x : X) (k : X → result Y) :
  (Ok x ≫= k) = k x.
Proof. done. Qed.

Lemma mapM_result_ext {X Y : Type} (f g : X → result Y) (xs : list X) :
  Forall (λ x, f x = g x) xs → mapM_result f xs = mapM_result g xs.
Proof.
  induction 1 as [|x xs Hx _ IH]; [done|].
  cbn [mapM_result]. by rewrite Hx, IH.
Qed.

Lemma mapM_result_Ok {X : Type} (xs : list X) : mapM_result Ok xs = Ok xs.
Proof.
  induction xs as [|x xs IH]; [done|]. cbn [mapM_result]. by rewrite IH.
Qed.

Lemma for_each_ext {S X : Type} (f g : S → X → result S) (xs : list X) (s : S) :
  Forall (λ x, ∀ s, f s x = g s x) xs → for_each f xs s = for_each g xs s.
Proof.
  intros Hxs. revert s. induction Hxs as [|x xs Hx _ IH]; intros s; [done|].
  cbn [for_each]. rewrite Hx. destruct (g s x); [apply IH|done].
Qed.

(** A loop that adds one term per entry is the sum of the terms, taken
    from the left. *)
Lemma for_each_accumulate {X T : Type} (add : T → T → T) (f : X → result T)
    (xs : list X) (t0 : T) :
  for_each (λ acc x, t ← f x; Ok (add acc t)) xs t0
  = ts ← mapM_result f xs; Ok (foldl add t0 ts).
Proof.
  revert t0; induction xs as [|x xs IH]; intros t0; [done|].
  cbn [for_each mapM_result]. destruct (f x) as [t|]; [|done]. simpl.
  rewrite IH. by destruct (mapM_result f xs).
Qed.

Section objective.
Context `{Float64 F, Linalg F}.
Implicit Types (x mean params : list F) (cov : list (list F)).

Lemma obs_mask_length x : length (obs_mask x) = length x.
Proof. apply length_fmap. Qed.

(** Selecting by the mask of a row is selecting at its observed indices. *)
Lemma mapM_observed {A B : Type} (g : A → result B) (pre a : list A) x k :
  length a = length x → length pre = k →
  mapM_result (λ i, v ← Np.getitem (pre ++ a) i; g v) (observed_from k x)
  = mapM_result g (Np.compress (obs_mask x) a).
Proof.
  revert a pre k; induction x as [|v x IH]; intros [|u a] pre k Ha Hpre;
    try done.
  simpl in Ha. unfold observed_from. cbn [length seq zip zip_with].
  rewrite filter_cons. cbn [obs_mask fmap list_fmap Np.compress snd].
  specialize (IH a (pre ++ [u]) (S k)).
  rewrite <-(assoc_L (++)) in IH. cbn [app] in IH.
  destruct (isnan v) eqn:Hv.
  - rewrite decide_False by done. cbn [negb].
    apply IH; [lia|]. rewrite length_app. simpl. lia.
  - rewrite decide_True by done. cbn [negb fmap list_fmap fst mapM_result].
    rewrite (getitem_Ok _ k u) by (by rewrite <-Hpre, list_lookup_middle).
    cbn [mbind result_bind]. destruct (g u); [|done]. simpl.
    unfold observed_from in IH. rewrite IH; [done|lia|].
    rewrite length_app. simpl. lia.
Qed.

Lemma elem_of_observed x i : i ∈ observed x → i < length x.
Proof.
  unfold observed, observed_from. intros Hin.
  apply list_elem_of_fmap in Hin as ([i' v] & -> & Hin).
  apply list_elem_of_filter in Hin as [_ Hin].
  apply elem_of_zip_l, elem_of_seq in Hin. simpl. lia.
Qed.

Lemma at_indices_observed {A : Type} (a : list A) x :
  length a = length x →
  at_indices a (observed x) = Np.getmask a (obs_mask x).
Proof.
  intros Ha. unfold at_indices, Np.getmask.
  rewrite obs_mask_length, decide_True by done.
  rewrite <-mapM_result_Ok, <-(mapM_observed Ok [] a x 0) by done.
  apply mapM_result_ext, Forall_forall. intros i _. simpl.
  by destruct (Np.getitem a i).
Qed.

Lemma compress_subseteq {A : Type} (mask : list bool) (a : list A) v :
  v ∈ Np.compress mask a → v ∈ a.
Proof.
  revert a; induction mask as [|b mask IH]; intros [|u a]; simpl;
    try by intros ?%elem_of_nil.
  destruct b; rewrite ?elem_of_cons; intuition.
Qed.

Lemma submatrix_observed cov x :
  is_matrix (length x) (length x) cov →
  submatrix cov (observed x)
  = co ← Np.getmask cov (obs_mask x); Np.getmask_cols co (obs_mask x).
Proof.
  intros [Hn Hm]. unfold submatrix, Np.getmask, Np.getmask_cols.
  rewrite obs_mask_length, decide_True by done. cbn [mbind result_bind].
  rewrite (mapM_result_ext _
    (λ i, row ← Np.getitem ([] ++ cov) i; at_indices row (observed x))).
  - unfold observed at 2. rewrite mapM_observed by done.
    apply mapM_result_ext, Forall_forall. intros row Hrow.
    apply compress_subseteq in Hrow.
    rewrite Forall_forall in Hm. by apply at_indices_observed, Hm.
  - apply Forall_forall. intros i Hi%elem_of_observed. simpl.
    destruct (lookup_lt_is_Some_2 cov i) as [row Hrow]; [lia|].
    unfold Np.getitem2, at_indices. by rewrite (getitem_Ok _ _ _ Hrow).
Qed.

(** One pass of the loop adds the marginal log-density of its row. *)
Lemma obj_body_marginal mean cov objval x :
  length mean = length x → is_matrix (length x) (length x) cov →
  obj_body mean cov objval x
  = ll ← marginal_log_density mean cov x; Ok (fadd objval ll).
Proof.
  intros Hmean Hcov. unfold obj_body, marginal_log_density.
  change ((λ v, negb (isnan v)) <$> x) with (obs_mask x).
  rewrite !at_indices_observed, submatrix_observed by done.
  destruct (Np.getmask x (obs_mask x)) as [xo|]; [|done]. simpl.
  destruct (Np.getmask mean (obs_mask x)) as [mo|]; [|done]. simpl.
  destruct (Np.getmask cov (obs_mask x)) as [co|]; [|done]. simpl.
  by destruct (Np.getmask_cols co (obs_mask x)).
Qed.

(** A row with every coordinate missing selects nothing: its term is the
    log-likelihood of the empty observation. *)
Lemma compress_all_missing {A : Type} x (a : list A) :
  Forall (λ v, isnan v = true) x → Np.compress (obs_mask x) a = [].
Proof.
  intros Hx. revert a. induction Hx as [|v x Hv _ IH]; intros [|u a]; try done.
  cbn [obs_mask fmap list_fmap Np.compress]. rewrite Hv. apply IH.
Qed.

Lemma obj_body_all_missing mean cov objval x :
  Forall (λ v, isnan v = true) x →
  length mean = length x → length cov = length x →
  obj_body mean cov objval x
  = ll ← _log_likelihood [] [] []; Ok (fadd objval ll).
Proof.
  intros Hx Hmean Hcov. unfold obj_body, Np.getmask.
  change ((λ v, negb (isnan v)) <$> x) with (obs_mask x).
  rewrite obs_mask_length, !decide_True by done.
  by rewrite !result_bind_Ok, !compress_all_missing.
Qed.

(** C3.  On a dataset whose rows have [dim] entries and a parameter vector
    of the valid length, the objective is the negative of the sum, over
    the rows, of the marginal log-density of the row's observed
    coordinates: the row, the mean and the covariance (rows and columns)
    taken at the indices that are not missing.  The two sides agree also
    when the log-density raises. *)
Theorem obj_func_neg_sum_marginals params dim data :
  Forall (λ x, length x = dim) data →
  length params = dim + dim * (dim + 1) / 2 →
  _obj_func params dim data = neg_sum_marginals params dim data.
Proof.
  intros Hdata Hlen. unfold _obj_func, neg_sum_marginals.
  destruct (unpack_params_tril dim params) as (cov & -> & Hcov & _).
  rewrite !result_bind_Ok. cbv beta iota.
  rewrite (for_each_ext _
    (λ acc x, t ← marginal_log_density (take dim params) cov x;
              Ok (fadd acc t))).
  - rewrite for_each_accumulate. by destruct (mapM_result _ data).
  - eapply Forall_impl; [exact Hdata|].
    intros x <- objval. apply obj_body_marginal; [|done].
    rewrite length_take. lia.
Qed.
End objective.

(** ** The driver *)

Section driver.
Context `{Float64 F, Linalg F, Optimize F}.

Lemma eye_is_matrix n : is_matrix n n (Np.eye n : list (list F)).
Proof.
  unfold Np.eye. split; [by rewrite length_fmap, length_seq|].
  apply Forall_fmap, Forall_forall. intros i _. simpl.
  by rewrite length_fmap, length_seq.
Qed.

Lemma getitem2_scale (a : list (list F)) s i j :
  Np.getitem2 (Np.scale a s) i j = (λ v, fmul v s) <$> Np.getitem2 a i j.
Proof.
  unfold Np.getitem2, Np.scale, Np.getitem. rewrite list_lookup_fmap.
  destruct (a !! i) as [row|]; [|done]. simpl. rewrite list_lookup_fmap.
  by destruct (row !! j).
Qed.

(** The initial guess is always encoded. *)
Lemma initial_params dim :
  ∃ params0 : list F,
    _pack_params dim (Np.zeros dim) (Np.eye dim) = Ok params0.
Proof.
  destruct (tril_values_exist dim (Np.eye dim : list (list F)))
    as [vals Hvals];
    [apply eye_is_matrix|].
  exists (Np.zeros dim ++ vals).
  apply pack_params_values; [apply zeros_length|done].
Qed.

(** C6.  With the vector [res] that the optimizer returns held fixed, the
    covariance returned with [bias = true] is the decoded one, unscaled,
    and the one returned with [bias = false] is that covariance with every
    entry multiplied by [size / (size - 1.0)]; the means are the same. *)
Theorem fiml_bias_scaling (data : list (list F)) (res : list F) :
  1 < length data →
  (params0 ← _pack_params (Np.ncols data) (Np.zeros (Np.ncols data))
                          (Np.eye (Np.ncols data));
   optimize_fmin (λ params, _obj_func params (Np.ncols data) data) params0)
  = Ok res →
  ∃ mean cov,
    _unpack_params (Np.ncols data) res = Ok (mean, cov) ∧
    fiml data true = Ok (mean, cov) ∧
    fiml data false
    = Ok (mean, Np.scale cov (bias_correction (length data))) ∧
    ∀ i j, Np.getitem2 (Np.scale cov (bias_correction (length data))) i j
           = (λ v, fmul v (bias_correction (length data)))
               <$> Np.getitem2 cov i j.
Proof.
  intros Hsize Hres.
  destruct (unpack_params_tril (Np.ncols data) res) as (cov & E & _).
  exists (take (Np.ncols data) res), cov. split; [done|].
  unfold fiml, Np.shape, size_ratio. cbv beta iota zeta.
  destruct (_pack_params _ _ _) as [params0|]; [|done].
  rewrite result_bind_Ok in Hres. rewrite !result_bind_Ok, Hres.
  rewrite !result_bind_Ok, E. rewrite decide_False by lia.
  split; [done|]. split; [done|]. intros i j. apply getitem2_scale.
Qed.
End driver.

Lemma fiml_bias_scaling_witness :
  1 < length [[1]; [2]; [3]]%R ∧
  ∃ mean cov,
    _unpack_params 1 [0; 1]%R = Ok (mean, cov) ∧
    @fiml R _ small_linalg idle_fmin [[1]; [2]; [3]]%R true = Ok (mean, cov) ∧
    @fiml R _ small_linalg idle_fmin [[1]; [2]; [3]]%R false
    = Ok (mean, Np.scale cov (bias_correction 3)) ∧
    ∀ i j, Np.getitem2 (Np.scale cov (bias_correction 3)) i j
           = (λ v, fmul v (bias_correction 3)) <$> Np.getitem2 cov i j.
Proof.
  split; [simpl; lia|].
  apply (@fiml_bias_scaling R _ small_linalg idle_fmin
           [[1]; [2]; [3]]%R [0; 1]%R).
  - simpl; lia.
  - reflexivity.
Defined.

Lemma obj_func_neg_sum_marginals_witness :
  @_obj_func _ _ nan_small_linalg
    [Some 0; Some 0; Some 1; Some 0; Some 1]%R 2
    [[Some 1; Some 2]; [Some 3; None]; [None; Some 4]; [Some 5; Some 6]]%R
  = @neg_sum_marginals _ _ nan_small_linalg
      [Some 0; Some 0; Some 1; Some 0; Some 1]%R 2
      [[Some 1; Some 2]; [Some 3; None]; [None; Some 4]; [Some 5; Some 6]]%R.
Proof.
  apply (@obj_func_neg_sum_marginals _ _ nan_small_linalg
           [Some 0; Some 0; Some 1; Some 0; Some 1]%R 2
           [[Some 1; Some 2]; [Some 3; None]; [None; Some 4];
            [Some 5; Some 6]]%R).
  - repeat constructor.
  - reflexivity.
Defined.

(** ** The density *)

(** *** The density with numpy's operations *)

Section np_density_proofs.
Context `{Float64 F, Linalg F}.
Implicit Types (x mean u acc : list F) (P cov : list (list F)).






End np_density_proofs.

(** *** The empty observation *)

Section density.
Context {L : Linalg (option R)}.
Implicit Types (x mean : list R) (P : list (list R))
  (cov : list (list (option R))).
Open Scope R_scope.

Lemma empty_density_factors :
  Rpower (IZR 2 * PI) (- (1 / 2) * IZR 0) * Rpower 1 (- (1 / 2))
  * exp (- (1 / 2) * 0) = 1.
Proof.
  replace (- (1 / 2) * IZR 0) with 0 by lra.
  replace (- (1 / 2) * 0) with 0 by lra.
  rewrite Rpower_O by (pose proof PI_RGT_0; lra).
  unfold Rpower. rewrite ln_1, Rmult_0_r, exp_0. lra.
Qed.

Lemma log_likelihood_empty :
  linalg_det (F := option R) [] = Ok (Some 1) →
  linalg_inv (F := option R) [] = Ok [] →
  _pdf_normal (F := option R) [] [] [] = Ok (Some 1) ∧
  _log_likelihood (F := option R) [] [] [] = Ok (Some 0).
Proof.
  intros Hdet Hinv.
  assert (_pdf_normal (F := option R) [] [] [] = Ok (Some 1)) as Epdf.
  { unfold _pdf_normal. rewrite Hdet, Hinv. simpl.
    do 2 f_equal. apply empty_density_factors. }
  split; [done|].
  unfold _log_likelihood. rewrite Epdf, result_bind_Ok. simpl.
  by rewrite ln_1.
Qed.

(** C5.  With a linear-algebra collaborator that gives the empty array the
    determinant [1] and the empty inverse, the density at the empty
    observation is [1] and its logarithm is [0]; and a row whose every
    coordinate is missing selects the empty observation, mean and
    covariance, whatever the mean and the covariance hold, so that the
    loop of the objective adds [0.0] for it. *)
Theorem all_missing_log_density :
  linalg_det (F := option R) [] = Ok (Some 1) →
  linalg_inv (F := option R) [] = Ok [] →
  _pdf_normal (F := option R) [] [] [] = Ok (Some 1) ∧
  _log_likelihood (F := option R) [] [] [] = Ok (Some 0) ∧
  ∀ (row m : list (option R)) (c : list (list (option R))) objval,
    Forall (λ v, isnan v = true) row →
    length m = length row → length c = length row →
    obj_body m c objval row = Ok (fadd objval (Some 0)).
Proof.
  intros Hdet Hinv.
  destruct (log_likelihood_empty Hdet Hinv) as [Epdf Ell].
  split; [done|]. split; [done|].
  intros row m c objval Hrow Hm Hc.
  by rewrite obj_body_all_missing, Ell.
Qed.
End density.

(** The claims on the density and the objective at concrete arrays. *)


Lemma all_missing_log_density_witness :
  @_pdf_normal _ _ nan_small_linalg [] [] [] = Ok (Some 1%R) ∧
  @_log_likelihood _ _ nan_small_linalg [] [] [] = Ok (Some 0%R) ∧
  ∀ (row m : list (option R)) (c : list (list (option R))) objval,
    Forall (λ v, isnan v = true) row →
    length m = length row → length c = length row →
    @obj_body _ _ nan_small_linalg m c objval row
    = Ok (fadd objval (Some 0%R)).
Proof.
  apply (@all_missing_log_density nan_small_linalg); reflexivity.
Defined.

(** A row with its two coordinates missing, in a dataset of dimension 2. *)
Example all_missing_row :
  @obj_body _ _ nan_small_linalg
    [Some 0; Some 0]%R [[Some 1; Some 0]; [Some 0; Some 1]]%R
    (Some 5%R) [None; None]
  = Ok (fadd (Some 5%R) (Some 0%R)).
Proof.
  rewrite obj_body_all_missing; [|by repeat constructor|done..].
  by rewrite (proj2 (@log_likelihood_empty nan_small_linalg eq_refl eq_refl)).
Qed.

(** [np.tril_indices(3)] *)
Example tril_indices_3 :
  Np.tril_indices 3 = ([0; 1; 1; 2; 2; 2], [0; 0; 1; 0; 1; 2]).
Proof. reflexivity. Qed.

(** The driver with the idle optimizer: the initial guess comes back, its
    covariance scaled unless [bias] is set. *)
Example fiml_idle :
  @fiml _ _ small_linalg idle_fmin [[1]; [2]; [3]]%R false
  = Ok ([0%R], [[(1 * (3 / (3 - 1)))%R]]) ∧
  @fiml _ _ small_linalg idle_fmin [[1]; [2]; [3]]%R true
  = Ok ([0%R], [[1%R]]).
Proof. split; reflexivity. Qed.

(** The driver on a single row: with [bias] unset the correction divides
    by [1 - 1.0]. *)
Example fiml_one_row :
  @fiml _ _ small_linalg idle_fmin [[1]]%R false = Raise ZeroDivisionError ∧
  @fiml _ _ small_linalg idle_fmin [[1]]%R true = Ok ([0%R], [[1%R]]).
Proof. split; reflexivity. Qed.

(** The mask of a row and the indices it selects. *)
Example observed_row :
  obs_mask [Some 3%R; None; Some 4%R] = [true; false; true] ∧
  observed [Some 3%R; None; Some 4%R] = [0; 2] ∧
  Np.getmask [Some 3%R; None; Some 4%R] [true; false; true]
  = Ok [Some 3%R; Some 4%R] ∧
  (co ← Np.getmask [[1; 2; 3]; [4; 5; 6]; [7; 8; 9]]%R [true; false; true];
   Np.getmask_cols co [true; false; true])
  = Ok [[1; 3]; [7; 9]]%R.
Proof. repeat split. Qed.

(** * Further properties of the code *)

(** ** The layout of the encoded vector *)

(** Position [i * (i + 1) / 2 + j] of the lower-triangle enumeration is
    [(i, j)]. *)
Lemma tril_pairs_lookup (n i j : nat) :
  j ≤ i → i < n → tril_pairs n !! (i * (i + 1) / 2 + j) = Some (i, j).
Proof.
  intros Hj Hi. induction n as [|n IH]; [lia|].
  rewrite tril_pairs_S. destruct (decide (i < n)) as [Hlt|Hge].
  - apply lookup_app_l_Some. by apply IH.
  - assert (i = n) as -> by lia.
    rewrite lookup_app_r by (rewrite tril_pairs_length; lia).
    rewrite tril_pairs_length, list_lookup_fmap.
    replace (n * (n + 1) / 2 + j - n * (n + 1) / 2) with j by lia.
    by rewrite lookup_seq_lt by lia.
Qed.

Section codec_layout.
Context `{Float64 F}.
Implicit Types (c cov : list (list F)) (params mean vs : list F).

(** X1.  In the vector that [_pack_params] returns for a mean of length
    [dim] and a [dim] by [dim] covariance, entry [p < dim] is [mean[p]]
    and entry [dim + i * (i + 1) / 2 + j] is [cov[i, j]], for every
    [j <= i < dim]. *)
Theorem pack_params_entry dim mean cov :
  length mean = dim → is_matrix dim dim cov →
  ∃ params, _pack_params dim mean cov = Ok params ∧
    (∀ p, p < dim → Np.getitem params p = Np.getitem mean p) ∧
    ∀ i j, j ≤ i → i < dim →
      Np.getitem params (dim + (i * (i + 1) / 2 + j)) = Np.getitem2 cov i j.
Proof.
  intros Hmean Hcov.
  destruct (tril_values_exist dim cov Hcov) as [vals Hvals].
  exists (mean ++ vals). split; [by apply pack_params_values|]. split.
  - intros p Hp. unfold Np.getitem. by rewrite lookup_app_l by lia.
  - intros i j Hj Hi.
    pose proof (tril_pairs_lookup dim i j Hj Hi) as Hp.
    destruct (Forall2_lookup_l _ _ _ _ _ Hvals Hp) as (v & Hv & Hc).
    simpl in Hc. rewrite getitem2_lookup2, Hc. apply getitem_Ok.
    by rewrite lookup_app_r, Hmean, Nat.add_comm, Nat.add_sub by lia.
Qed.

(** X2.  In the pair that [_unpack_params] returns for a vector of the
    valid length, the mean has [dim] entries, [mean[p]] is [params[p]],
    and both [cov[i, j]] and [cov[j, i]] are
    [params[dim + i * (i + 1) / 2 + j]], for every [j <= i < dim]. *)
Theorem unpack_params_entry dim params :
  length params = dim + dim * (dim + 1) / 2 →
  ∃ mean cov, _unpack_params dim params = Ok (mean, cov) ∧
    length mean = dim ∧
    (∀ p, p < dim → Np.getitem mean p = Np.getitem params p) ∧
    ∀ i j, j ≤ i → i < dim →
      Np.getitem2 cov i j = Np.getitem params (dim + (i * (i + 1) / 2 + j)) ∧
      Np.getitem2 cov j i = Np.getitem params (dim + (i * (i + 1) / 2 + j)).
Proof.
  intros Hlen.
  destruct (unpack_params_tril dim params) as (cov & E & Hcov & Hs & L).
  exists (take dim params), cov. split; [done|]. split; [|split].
  - rewrite length_take. lia.
  - intros p Hp. unfold Np.getitem. by rewrite lookup_take_lt.
  - intros i j Hj Hi.
    pose proof (tril_pairs_lookup dim i j Hj Hi) as Hp.
    assert (Np.getitem2 cov i j
            = Np.getitem params (dim + (i * (i + 1) / 2 + j))) as Hij.
    { rewrite getitem2_lookup2, (L _ i j Hp), lookup_drop.
      apply lookup_lt_Some in Hp. rewrite tril_pairs_length in Hp.
      destruct (lookup_lt_is_Some_2 params (dim + (i * (i + 1) / 2 + j)))
        as [v Hv]; [lia|].
      rewrite Hv. simpl. symmetry. by apply getitem_Ok. }
    split; [done|]. by rewrite <-(Hs i j).
Qed.
End codec_layout.

Lemma pack_params_entry_witness :
  ∃ params, _pack_params 2 [1; 2]%R [[3; 4]; [5; 6]]%R = Ok params ∧
    (∀ p, p < 2 → Np.getitem params p = Np.getitem [1; 2]%R p) ∧
    ∀ i j, j ≤ i → i < 2 →
      Np.getitem params (2 + (i * (i + 1) / 2 + j))
      = Np.getitem2 [[3; 4]; [5; 6]]%R i j.
Proof.
  apply (pack_params_entry 2 [1; 2]%R [[3; 4]; [5; 6]]%R).
  - reflexivity.
  - split; [reflexivity|]. repeat constructor.
Defined.

Lemma unpack_params_entry_witness :
  ∃ mean cov, _unpack_params 2 [1; 2; 3; 4; 6]%R = Ok (mean, cov) ∧
    length mean = 2 ∧
    (∀ p, p < 2 → Np.getitem mean p = Np.getitem [1; 2; 3; 4; 6]%R p) ∧
    ∀ i j, j ≤ i → i < 2 →
      Np.getitem2 cov i j
      = Np.getitem [1; 2; 3; 4; 6]%R (2 + (i * (i + 1) / 2 + j)) ∧
      Np.getitem2 cov j i
      = Np.getitem [1; 2; 3; 4; 6]%R (2 + (i * (i + 1) / 2 + j)).
Proof.
  apply (unpack_params_entry 2 [1; 2; 3; 4; 6]%R). reflexivity.
Defined.

(** ** What the codec does outside its contract *)

Lemma written_Some_elem {A : Type} (ts : list (A * nat * nat)) a b w :
  written ts a b = Some w →
  ∃ i j, (w, i, j) ∈ ts ∧ ((i, j) = (a, b) ∨ (j, i) = (a, b)).
Proof.
  induction ts as [|[[v i] j] ts IH]; [done|]. cbn [written].
  destruct (written ts a b) as [w'|].
  - intros [= ->]. destruct IH as (i' & j' & Hin & Hhit); [done|].
    exists i', j'. split; [by right|done].
  - case_decide as Hd; [|done]. intros [= ->].
    exists i, j. split; [by left|done].
Qed.

Section codec_edges.
Context `{Float64 F}.
Implicit Types (c cov : list (list F)) (params mean vs : list F).

(** Decoding what was encoded from any [dim] by [dim] array: the lower
    triangle, mirrored. *)
Lemma unpack_pack_lower dim m C vals :
  length m = dim →
  Forall2 (λ ij v, lookup2 C ij.1 ij.2 = Some v) (tril_pairs dim) vals →
  ∃ cov, _unpack_params dim (m ++ vals) = Ok (m, cov) ∧
    is_matrix dim dim cov ∧
    ∀ a b, a < dim → b < dim →
      lookup2 cov a b = lookup2 C (a `max` b) (a `min` b).
Proof.
  intros Hm Hvals.
  destruct (unpack_params_spec dim (m ++ vals)) as (cov & E & Hcov & L).
  exists cov. rewrite E, take_app_length' by done.
  split; [done|]. split; [done|]. intros a b Ha Hb.
  rewrite L, drop_app_length' by done.
  destruct (written_covered vals (tril_pairs dim) a b) as [w Hw].
  { apply Forall2_length in Hvals. lia. }
  { rewrite !elem_of_tril_pairs. lia. }
  rewrite Hw. apply written_Some_elem in Hw as (i & j & Hin & Hhit).
  rewrite zip3_pairs in Hin.
  apply list_elem_of_fmap in Hin as ([v [i' j']] & [= <- <- <-] & Hin).
  apply list_elem_of_lookup_1 in Hin as [p Hp].
  apply lookup_zip_with_Some in Hp as (v' & ij & [= <- <-] & Hv & Hij).
  destruct (Forall2_lookup_lr _ _ _ _ _ _ Hvals Hij Hv).
  apply list_elem_of_lookup_2, elem_of_tril_pairs in Hij.
  destruct Hhit as [[= <- <-]|[= <- <-]].
  - by rewrite Nat.max_l, Nat.min_r by lia.
  - by rewrite Nat.max_r, Nat.min_l by lia.
Qed.

(** X3.  Symmetry of the covariance is not checked: for any [dim] by [dim]
    array [C], decoding the encoding of [(m, C)] gives [m] and the lower
    triangle of [C] mirrored, entry [(a, b)] being
    [C[max a b, min a b]]; what [C] holds above its diagonal is lost. *)
Theorem unpack_pack_mirrors_lower dim m C :
  length m = dim → is_matrix dim dim C →
  ∃ params cov, _pack_params dim m C = Ok params ∧
    _unpack_params dim params = Ok (m, cov) ∧
    is_matrix dim dim cov ∧
    ∀ a b, a < dim → b < dim →
      Np.getitem2 cov a b = Np.getitem2 C (a `max` b) (a `min` b).
Proof.
  intros Hm HC. destruct (tril_values_exist dim C HC) as [vals Hvals].
  destruct (unpack_pack_lower dim m C vals Hm Hvals) as (cov & E & Hcov & L).
  exists (m ++ vals), cov. split; [by apply pack_params_values|].
  split; [done|]. split; [done|]. intros a b Ha Hb.
  by rewrite !getitem2_lookup2, L.
Qed.

(** X4.  [_pack_params] reads the covariance on and below the diagonal
    only: two arrays with the same [cov[i, j]] for all [j <= i < dim]
    (the same value, or the same [IndexError]) give the same result, be it
    a vector or an exception. *)
Theorem pack_params_lower_only dim mean cov cov' :
  (∀ i j, j ≤ i → i < dim → Np.getitem2 cov i j = Np.getitem2 cov' i j) →
  _pack_params dim mean cov = _pack_params dim mean cov'.
Proof.
  intros Hlow. unfold _pack_params.
  destruct (Np.setslice_to _ dim mean) as [params0|]; [|done].
  rewrite !result_bind_Ok, tril_indices_pairs.
  apply for_each_ext. rewrite zip3_pairs. apply Forall_fmap, Forall_forall.
  intros [p [i j]] Hin params. apply elem_of_zip_r in Hin.
  apply elem_of_tril_pairs in Hin. cbn [pack_body fst snd].
  rewrite Hlow by lia. done.
Qed.

(** X5.  A mean that has neither [dim] entries nor one entry is refused
    with a [ValueError], whatever the covariance. *)
Theorem pack_params_mean_length_error dim mean cov :
  length mean ≠ dim → length mean ≠ 1 →
  _pack_params dim mean cov = Raise ValueError.
Proof.
  intros Hdim Hone. unfold _pack_params, Np.setslice_to.
  rewrite zeros_length, Nat.min_l by lia. rewrite decide_False by done.
  by destruct mean as [|v [|v' mean]].
Qed.

(** X6.  A mean with one entry is broadcast: the result is that of the
    mean with [dim] copies of the entry, whatever the covariance. *)
Theorem pack_params_broadcasts_mean dim v cov :
  _pack_params dim [v] cov = _pack_params dim (replicate dim v) cov.
Proof.
  unfold _pack_params, Np.setslice_to.
  rewrite zeros_length, Nat.min_l by lia. rewrite length_replicate.
  rewrite (decide_True (P := dim = dim)) by done.
  case_decide as Hd; [|done]. simpl in Hd. by subst dim.
Qed.

(** The loop of [_pack_params] stops with an [IndexError] at the first
    position that the covariance does not have. *)
Lemma pack_loop_raise dim cov ps k pre zs :
  Exists (λ ij, lookup2 cov ij.1 ij.2 = None) ps →
  length pre = dim + k → length ps ≤ length zs →
  for_each (pack_body dim cov)
           (Np.zip3 (seq k (length ps)) (ps.*1) (ps.*2)) (pre ++ zs)
  = Raise IndexError.
Proof.
  revert k pre zs. induction ps as [|[i j] ps IH]; intros k pre zs Hex Hpre Hzs.
  { by apply Exists_nil in Hex. }
  destruct zs as [|z zs]; simpl in Hzs; [lia|].
  cbn [length seq]. rewrite zip3_cons. cbn [for_each pack_body fst snd].
  rewrite getitem2_lookup2.
  destruct (lookup2 cov i j) as [v|] eqn:Hv; [|done].
  apply Exists_cons in Hex as [Hex|Hex]; [simpl in Hex; congruence|].
  rewrite result_bind_Ok.
  rewrite setitem_Ok by (rewrite length_app; simpl; lia).
  rewrite result_bind_Ok.
  rewrite <-Hpre, insert_app_r_alt, Nat.sub_diag by lia. simpl.
  rewrite (cons_middle v pre zs), app_assoc.
  apply IH; [done|rewrite length_app; simpl; lia|lia].
Qed.

(** X7.  With a mean of [dim] entries, a covariance that lacks an entry on
    or below the diagonal, [cov[i, j]] with [j <= i < dim], is refused
    with an [IndexError]. *)
Theorem pack_params_missing_entry_error dim mean cov i j :
  length mean = dim → j ≤ i → i < dim →
  Np.getitem2 cov i j = Raise IndexError →
  _pack_params dim mean cov = Raise IndexError.
Proof.
  intros Hmean Hj Hi Hnone. unfold _pack_params, Np.setslice_to, Np.range.
  rewrite zeros_length, Nat.min_l by lia.
  rewrite decide_True by done. rewrite result_bind_Ok.
  unfold Np.zeros. rewrite drop_replicate_add, tril_indices_pairs.
  rewrite <-tril_pairs_length.
  apply (pack_loop_raise dim cov (tril_pairs dim) 0 mean);
    [|lia|by rewrite length_replicate].
  apply Exists_exists. exists (i, j). split.
  - apply elem_of_tril_pairs. lia.
  - simpl. rewrite getitem2_lookup2 in Hnone.
    by destruct (lookup2 cov i j).
Qed.

(** X8.  Distinct vectors of the valid length decode to distinct pairs. *)
Theorem unpack_params_injective dim (v v' : list F) :
  length v = dim + dim * (dim + 1) / 2 →
  length v' = dim + dim * (dim + 1) / 2 →
  v ≠ v' → _unpack_params dim v ≠ _unpack_params dim v'.
Proof.
  intros Hv Hv' Hne Heq. apply Hne.
  destruct (unpack_params_tril dim v) as (c & E & _ & _ & L).
  destruct (unpack_params_tril dim v') as (c' & E' & _ & _ & L').
  rewrite E, E' in Heq. injection Heq as Hmean Hcov. subst c'.
  rewrite <-(take_drop dim v), <-(take_drop dim v'), Hmean. f_equal.
  apply list_eq_same_length with (dim * (dim + 1) / 2);
    [rewrite length_drop; lia..|].
  intros p x y Hp Hx Hy.
  destruct (lookup_lt_is_Some_2 (tril_pairs dim) p) as [[i j] Hij];
    [by rewrite tril_pairs_length|].
  pose proof (L p i j Hij) as Hl. rewrite (L' p i j Hij), Hx, Hy in Hl.
  simpl in Hl. congruence.
Qed.

(** X9.  Distinct pairs of a mean of [dim] entries and a symmetric [dim]
    by [dim] covariance encode to distinct vectors. *)
Theorem pack_params_injective dim (m m' : list F) (C C' : list (list F)) :
  length m = dim → is_matrix dim dim C → symmetric C →
  length m' = dim → is_matrix dim dim C' → symmetric C' →
  (m, C) ≠ (m', C') → _pack_params dim m C ≠ _pack_params dim m' C'.
Proof.
  intros Hm HC Hsym Hm' HC' Hsym' Hne Heq. apply Hne.
  cut (m = m' ∧ C = C'); [by intros [-> ->]|].
  rewrite symmetric_lookup2 in Hsym, Hsym'.
  destruct (tril_values_exist dim C HC) as [vals Hvals].
  destruct (tril_values_exist dim C' HC') as [vals' Hvals'].
  rewrite (pack_params_values dim m C vals),
    (pack_params_values dim m' C' vals') in Heq by done.
  injection Heq as Heq.
  apply app_inj_1 in Heq as [-> ->]; [|congruence]. split; [done|].
  destruct (unpack_pack_lower dim m' C vals' Hm' Hvals) as (c & E & _ & L).
  destruct (unpack_pack_lower dim m' C' vals' Hm' Hvals')
    as (c' & E' & _ & L').
  rewrite E in E'. injection E' as <-.
  apply (matrix_ext dim dim); [done..|]. intros a b Ha Hb.
  pose proof (L a b Ha Hb) as Hab. rewrite (L' a b Ha Hb) in Hab.
  destruct (decide (b ≤ a)).
  - by rewrite Nat.max_l, Nat.min_r in Hab by lia.
  - rewrite Nat.max_r, Nat.min_l in Hab by lia.
    by rewrite (Hsym a b), (Hsym' a b).
Qed.
End codec_edges.

Lemma unpack_pack_mirrors_lower_witness :
  ∃ params cov, _pack_params 2 [1; 2]%R [[3; 4]; [5; 6]]%R = Ok params ∧
    _unpack_params 2 params = Ok ([1; 2]%R, cov) ∧
    is_matrix 2 2 cov ∧
    ∀ a b, a < 2 → b < 2 →
      Np.getitem2 cov a b
      = Np.getitem2 [[3; 4]; [5; 6]]%R (a `max` b) (a `min` b).
Proof.
  apply (unpack_pack_mirrors_lower 2 [1; 2]%R [[3; 4]; [5; 6]]%R).
  - reflexivity.
  - split; [reflexivity|]. repeat constructor.
Defined.

(** The array [[3, 4], [5, 6]] comes back as [[3, 5], [5, 6]]. *)
Example unpack_pack_not_symmetric :
  (params ← _pack_params 2 [1; 2]%R [[3; 4]; [5; 6]]%R;
   _unpack_params 2 params)
  = Ok ([1; 2]%R, [[3; 5]; [5; 6]]%R).
Proof. reflexivity. Qed.

Lemma pack_params_lower_only_witness :
  _pack_params 2 [1; 2]%R [[3; 4]; [5; 6]]%R
  = _pack_params 2 [1; 2]%R [[3; 9]; [5; 6]]%R.
Proof.
  apply (pack_params_lower_only 2 [1; 2]%R
           [[3; 4]; [5; 6]]%R [[3; 9]; [5; 6]]%R).
  intros i j Hj Hi. destruct i as [|[|i]], j as [|[|j]]; try lia; reflexivity.
Defined.

Lemma pack_params_mean_length_error_witness :
  _pack_params 2 [1; 2; 3]%R [[3; 4]; [4; 6]]%R = Raise ValueError.
Proof.
  apply (pack_params_mean_length_error 2 [1; 2; 3]%R [[3; 4]; [4; 6]]%R);
    simpl; lia.
Defined.

Lemma pack_params_missing_entry_error_witness :
  _pack_params 2 [1; 2]%R [[3; 4]]%R = Raise IndexError.
Proof.
  apply (pack_params_missing_entry_error 2 [1; 2]%R [[3; 4]]%R 1 0);
    try reflexivity; lia.
Defined.

Lemma unpack_params_injective_witness :
  [1; 2]%R ≠ [1; 3]%R ∧ _unpack_params 1 [1; 2]%R ≠ _unpack_params 1 [1; 3]%R.
Proof.
  assert ([1; 2]%R ≠ [1; 3]%R) as Hne by (intros [= Heq]; lra).
  split; [exact Hne|].
  apply (unpack_params_injective 1 [1; 2]%R [1; 3]%R);
    [reflexivity|reflexivity|exact Hne].
Defined.

Lemma pack_params_injective_witness :
  _pack_params 1 [1%R] [[2%R]] ≠ _pack_params 1 [1%R] [[3%R]].
Proof.
  assert (∀ x : R, symmetric [[x]]) as Hsym.
  { intros x i j. destruct i as [|i], j as [|j]; reflexivity. }
  apply (pack_params_injective 1 [1%R] [1%R] [[2%R]] [[3%R]]).
  - reflexivity.
  - split; [reflexivity|repeat constructor].
  - apply Hsym.
  - reflexivity.
  - split; [reflexivity|repeat constructor].
  - apply Hsym.
  - intros [= Heq]. lra.
Defined.

(** ** The objective on complete, empty and failing data *)

Lemma for_each_app {S X : Type} (f : S → X → result S) (xs ys : list X) (s : S) :
  for_each f (xs ++ ys) s = s' ← for_each f xs s; for_each f ys s'.
Proof.
  revert s; induction xs as [|x xs IH]; intros s; [done|].
  cbn [app for_each]. destruct (f s x) as [s'|]; [|done].
  rewrite !result_bind_Ok. apply IH.
Qed.

Section objective_edges.
Context `{Float64 F, Linalg F}.
Implicit Types (x mean params : list F) (cov : list (list F))
  (data : list (list F)).

Lemma compress_all_observed {A : Type} x (a : list A) :
  Forall (λ v, isnan v = false) x → length a = length x →
  Np.compress (obs_mask x) a = a.
Proof.
  intros Hx. revert a.
  induction Hx as [|v x Hv _ IH]; intros [|u a] Hlen; try done.
  cbn [obs_mask fmap list_fmap Np.compress]. rewrite Hv. cbn [negb].
  f_equal. apply IH. simpl in Hlen. lia.
Qed.

(** On a row without missing value nothing is filtered. *)
Lemma obj_body_complete mean cov objval x :
  Forall (λ v, isnan v = false) x →
  length mean = length x → is_matrix (length x) (length x) cov →
  obj_body mean cov objval x
  = ll ← _log_likelihood x mean cov; Ok (fadd objval ll).
Proof.
  intros Hx Hmean [Hn Hm]. unfold obj_body, Np.getmask, Np.getmask_cols.
  change ((λ v, negb (isnan v)) <$> x) with (obs_mask x).
  rewrite obs_mask_length, !decide_True by done.
  rewrite !result_bind_Ok, !compress_all_observed by done.
  rewrite (mapM_result_ext _ Ok), mapM_result_Ok; [done|].
  eapply Forall_impl; [exact Hm|]. intros row Hrow. simpl.
  unfold Np.getmask. rewrite obs_mask_length, decide_True by done.
  by rewrite compress_all_observed.
Qed.

(** X10.  On a dataset without missing value, whose rows have [dim]
    entries, the objective is the negative of the sum of
    [_log_likelihood(x, mean, cov)] over the rows, with the whole decoded
    mean and covariance. *)
Theorem obj_func_complete_data params dim data :
  Forall (λ x, length x = dim ∧ Forall (λ v, isnan v = false) x) data →
  length params = dim + dim * (dim + 1) / 2 →
  _obj_func params dim data
  = '(mean, cov) ← _unpack_params dim params;
    terms ← mapM_result (λ x, _log_likelihood x mean cov) data;
    Ok (fneg (foldl fadd f0 terms)).
Proof.
  intros Hdata Hlen. unfold _obj_func.
  destruct (unpack_params_tril dim params) as (cov & -> & Hcov & _).
  rewrite !result_bind_Ok. cbv beta iota.
  rewrite (for_each_ext _
    (λ acc x, t ← _log_likelihood x (take dim params) cov; Ok (fadd acc t))).
  - rewrite for_each_accumulate. by destruct (mapM_result _ data).
  - eapply Forall_impl; [exact Hdata|].
    intros x [<- Hx] objval. apply obj_body_complete; [done| |done].
    rewrite length_take. lia.
Qed.

(** X11.  On a dataset without rows the objective is [-0.0], for every
    parameter vector, of whatever length. *)
Theorem obj_func_no_rows params dim :
  _obj_func params dim [] = Ok (fneg f0).
Proof.
  unfold _obj_func.
  by destruct (unpack_params_tril dim params) as (cov & -> & _).
Qed.

(** X12.  No exception is caught: when the rows before [x] evaluate and
    the marginal log-density of [x] raises [e], the objective raises [e],
    whatever the rows after [x] are. *)
Theorem obj_func_first_exception params dim data x rest mean cov ts e :
  Forall (λ x, length x = dim) (data ++ [x]) →
  length params = dim + dim * (dim + 1) / 2 →
  _unpack_params dim params = Ok (mean, cov) →
  mapM_result (marginal_log_density mean cov) data = Ok ts →
  marginal_log_density mean cov x = Raise e →
  _obj_func params dim (data ++ x :: rest) = Raise e.
Proof.
  intros Hrows Hlen Hunpack Hts He. unfold _obj_func.
  destruct (unpack_params_tril dim params) as (cov' & E & Hcov & _).
  rewrite E in Hunpack. injection Hunpack as <- <-.
  rewrite E, result_bind_Ok. cbv beta iota.
  apply Forall_app in Hrows as [Hdata Hx].
  rewrite Forall_singleton in Hx.
  assert (length (take dim params) = dim) as Hmean
    by (rewrite length_take; lia).
  rewrite for_each_app.
  rewrite (for_each_ext _
    (λ acc x, t ← marginal_log_density (take dim params) cov' x;
              Ok (fadd acc t))).
  - rewrite for_each_accumulate, Hts, !result_bind_Ok. cbn [for_each].
    rewrite obj_body_marginal, He by (by rewrite ?Hx). done.
  - eapply Forall_impl; [exact Hdata|].
    intros y <- objval. by apply obj_body_marginal.
Qed.

(** X13.  An observation and a mean of different lengths, neither of them
    with one entry, are refused with a [ValueError], whatever the
    covariance and the linear algebra do. *)
Theorem pdf_normal_length_error x mean cov :
  length x ≠ length mean → length x ≠ 1 → length mean ≠ 1 →
  _pdf_normal x mean cov = Raise ValueError ∧
  _log_likelihood x mean cov = Raise ValueError.
Proof.
  intros Hne Hx Hmean.
  assert (Np.subtract x mean = Raise ValueError) as E.
  { unfold Np.subtract. rewrite decide_False by done.
    by destruct x as [|a [|a' x]], mean as [|b [|b' mean]]. }
  unfold _log_likelihood, _pdf_normal. by rewrite E.
Qed.
End objective_edges.

(** ** The driver *)

Section driver_edges.
Context `{Float64 F, Linalg F, Optimize F}.

Lemma scale_is_matrix n m (a : list (list F)) s :
  is_matrix n m a → is_matrix n m (Np.scale a s).
Proof.
  intros [Hn Hm]. unfold Np.scale. split; [by rewrite length_fmap|].
  apply Forall_fmap. eapply Forall_impl; [exact Hm|].
  intros row Hrow. simpl. by rewrite length_fmap.
Qed.

Lemma scale_symmetric (a : list (list F)) s :
  symmetric a → symmetric (Np.scale a s).
Proof. intros Hs i j. by rewrite !getitem2_scale, (Hs i j). Qed.

(** X14.  On a dataset with at least one row, encoding the initial guess
    and decoding the optimizer's result never fail.  An exception of the
    optimizer leaves [fiml] unchanged.  When the optimizer returns [res],
    whatever its length: on a single row without [bias] the correction
    [size / (size - 1.0)] divides by [0.0] and [fiml] raises
    [ZeroDivisionError]; otherwise [fiml] returns the first [dim] entries
    of [res] as the mean and a symmetric [dim] by [dim] covariance. *)
Theorem fiml_outcome (data : list (list F)) (bias : bool) :
  data ≠ [] → is_matrix (length data) (Np.ncols data) data →
  ∃ params0,
    _pack_params (Np.ncols data) (Np.zeros (Np.ncols data))
                 (Np.eye (Np.ncols data)) = Ok params0 ∧
    match optimize_fmin (λ params, _obj_func params (Np.ncols data) data)
                        params0 with
    | Ok res =>
        if decide (length data = 1 ∧ bias = false)
        then fiml data bias = Raise ZeroDivisionError
        else ∃ cov, fiml data bias = Ok (take (Np.ncols data) res, cov) ∧
               is_matrix (Np.ncols data) (Np.ncols data) cov ∧ symmetric cov
    | Raise e => fiml data bias = Raise e
    end.
Proof.
  intros _ _.
  destruct (@initial_params F _ (Np.ncols data)) as [params0 E0].
  exists params0. split; [done|].
  unfold fiml, Np.shape. cbv beta iota zeta. rewrite E0, result_bind_Ok.
  destruct (optimize_fmin _ params0) as [res|e]; [|done].
  rewrite result_bind_Ok.
  destruct (unpack_params_tril (Np.ncols data) res)
    as (cov & -> & Hcov & Hsym & _).
  rewrite result_bind_Ok. cbv beta iota. unfold size_ratio.
  destruct bias; cbn [negb].
  - rewrite (decide_False (P := _ ∧ _)) by (by intros [_ ?]).
    rewrite result_bind_Ok. by exists cov.
  - destruct (decide (length data = 1)) as [E1|E1].
    + by rewrite (decide_True (P := _ ∧ _)) by done.
    + rewrite (decide_False (P := _ ∧ _)) by (by intros [? _]).
      rewrite !result_bind_Ok. eexists. split; [done|].
      split; [by apply scale_is_matrix|by apply scale_symmetric].
Qed.

Lemma lookup2_eye n i j :
  lookup2 (Np.eye n : list (list F)) i j
  = if decide (i < n ∧ j < n)
    then Some (if decide (i = j) then f1 else f0) else None.
Proof.
  unfold lookup2, Np.eye. rewrite list_lookup_fmap.
  destruct (decide (i < n)) as [Hi|Hi].
  - rewrite lookup_seq_lt by done. simpl. rewrite list_lookup_fmap.
    destruct (decide (j < n)) as [Hj|Hj].
    + rewrite lookup_seq_lt by done. simpl.
      by rewrite (decide_True (P := i < n ∧ j < n)).
    + rewrite lookup_seq_ge by lia. simpl.
      rewrite (decide_False (P := i < n ∧ j < n)); [done|lia].
  - rewrite lookup_seq_ge by lia. simpl.
    rewrite (decide_False (P := i < n ∧ j < n)); [done|lia].
Qed.

End driver_edges.

Section driver_start.
Context `{Float64 F, Linalg F}.
Variables O1 O2 : Optimize F.

(** X15.  On a dataset with at least one row, the vector from which
    [fiml] starts the optimizer has length [dim + dim * (dim + 1) / 2],
    holds [0.0] everywhere except [1.0] at the positions
    [dim + i * (i + 1) / 2 + i] of the diagonal, and decodes to the zero
    mean and the identity covariance.  [fiml] consults the optimizer at
    this vector only: with two optimizers that answer alike there, it
    returns or raises alike. *)
Theorem fiml_initial_guess (data : list (list F)) (bias : bool) :
  data ≠ [] → is_matrix (length data) (Np.ncols data) data →
  ∃ params0 : list F,
    _pack_params (Np.ncols data) (Np.zeros (Np.ncols data))
                 (Np.eye (Np.ncols data)) = Ok params0 ∧
    length params0
    = Np.ncols data + Np.ncols data * (Np.ncols data + 1) / 2 ∧
    (∀ p, p < Np.ncols data → Np.getitem params0 p = Ok f0) ∧
    (∀ i j, j ≤ i → i < Np.ncols data →
       Np.getitem params0 (Np.ncols data + (i * (i + 1) / 2 + j))
       = Ok (if decide (i = j) then f1 else f0)) ∧
    _unpack_params (Np.ncols data) params0
    = Ok (Np.zeros (Np.ncols data), Np.eye (Np.ncols data)) ∧
    (@optimize_fmin F O1
       (λ params, _obj_func params (Np.ncols data) data) params0
     = @optimize_fmin F O2
         (λ params, _obj_func params (Np.ncols data) data) params0 →
     @fiml F _ _ O1 data bias = @fiml F _ _ O2 data bias).
Proof.
  intros _ _.
  set (dim := Np.ncols data).
  destruct (tril_values_exist dim (Np.eye dim : list (list F)))
    as [vals Hvals]; [apply eye_is_matrix|].
  assert (_pack_params dim (Np.zeros dim) (Np.eye dim)
          = Ok (Np.zeros dim ++ vals)) as E0
    by (apply pack_params_values; [apply zeros_length|done]).
  exists (Np.zeros dim ++ vals). split; [done|].
  split; [|split; [|split; [|split]]].
  - by apply pack_params_length in E0.
  - intros p Hp. apply getitem_Ok.
    rewrite lookup_app_l by (by rewrite zeros_length).
    by apply lookup_replicate_2.
  - intros i j Hj Hi.
    pose proof (tril_pairs_lookup dim i j Hj Hi) as Hp.
    destruct (Forall2_lookup_l _ _ _ _ _ Hvals Hp) as (v & Hv & Hc).
    simpl in Hc.
    rewrite lookup2_eye, (decide_True (P := i < dim ∧ j < dim)) in Hc by lia.
    injection Hc as <-. apply getitem_Ok.
    by rewrite lookup_app_r, zeros_length, Nat.add_comm, Nat.add_sub
      by (rewrite zeros_length; lia).
  - destruct (unpack_pack_lower dim (Np.zeros dim) (Np.eye dim) vals)
      as (cov & E & Hcov & L); [apply zeros_length|done|].
    rewrite E. do 2 f_equal.
    apply (matrix_ext dim dim); [done|apply eye_is_matrix|].
    intros a b Ha Hb. rewrite (L a b Ha Hb), !lookup2_eye.
    rewrite (decide_True (P := a < dim ∧ b < dim)) by lia.
    rewrite (decide_True (P := a `max` b < dim ∧ a `min` b < dim)) by lia.
    f_equal. repeat case_decide; try done; lia.
  - intros Hopt. unfold fiml, Np.shape. cbv beta iota zeta. fold dim.
    by rewrite E0, !result_bind_Ok, Hopt.
Qed.
End driver_start.

(** ** Data without information *)

Section no_information.
Context {L : Linalg (option R)}.
Implicit Types (x mean : list R) (P : list (list R))
  (cov : list (list (option R))).
Open Scope R_scope.

Lemma all_missing_loop (mean : list (option R)) cov
    (data : list (list (option R))) (a : R) :
  linalg_det (F := option R) [] = Ok (Some 1) →
  linalg_inv (F := option R) [] = Ok [] →
  Forall (λ row, length row = length mean ∧ Forall (λ v, isnan v = true) row)
         data →
  length cov = length mean →
  for_each (obj_body mean cov) data (Some a) = Ok (Some a).
Proof.
  intros Hdet Hinv Hdata Hcov.
  induction Hdata as [|row data [Hlen Hrow] _ IH]; [done|].
  cbn [for_each]. rewrite obj_body_all_missing by (done || congruence).
  rewrite (proj2 (log_likelihood_empty Hdet Hinv)), !result_bind_Ok.
  simpl. replace (a + 0) with a by lra. exact IH.
Qed.

(** X19.  A dataset in which every value is missing carries no
    information: with a linear algebra that gives the empty array the
    determinant [1] and the empty inverse, its objective is [0] for every
    parameter vector of the valid length. *)
Theorem obj_func_all_missing (params : list (option R)) dim
    (data : list (list (option R))) :
  linalg_det (F := option R) [] = Ok (Some 1) →
  linalg_inv (F := option R) [] = Ok [] →
  Forall (λ row, length row = dim ∧ Forall (λ v, isnan v = true) row) data →
  length params = (dim + dim * (dim + 1) / 2)%nat →
  _obj_func params dim data = Ok (Some 0).
Proof.
  intros Hdet Hinv Hdata Hlen. unfold _obj_func.
  destruct (unpack_params_tril dim params) as (c & -> & [Hc _] & _).
  rewrite result_bind_Ok. cbv beta iota.
  assert (length (take dim params) = dim) as Hmean
    by (rewrite length_take; lia).
  change f0 with (Some 0).
  rewrite all_missing_loop; try done; [|by rewrite Hmean..].
  rewrite result_bind_Ok. simpl. by rewrite Ropp_0.
Qed.
End no_information.

(** ** The further properties at concrete arrays *)

Lemma obj_func_complete_data_witness :
  @_obj_func _ _ nan_small_linalg
    [Some 0; Some 0; Some 1; Some 0; Some 1]%R 2
    [[Some 1; Some 2]; [Some 3; Some 4]]%R
  = '(mean, cov) ← _unpack_params 2 [Some 0; Some 0; Some 1; Some 0; Some 1]%R;
    terms ← mapM_result (λ x, @_log_likelihood _ _ nan_small_linalg x mean cov)
                        [[Some 1; Some 2]; [Some 3; Some 4]]%R;
    Ok (fneg (foldl fadd f0 terms)).
Proof.
  apply (@obj_func_complete_data _ _ nan_small_linalg
           [Some 0; Some 0; Some 1; Some 0; Some 1]%R 2
           [[Some 1; Some 2]; [Some 3; Some 4]]%R).
  - repeat constructor.
  - reflexivity.
Defined.

Lemma obj_func_first_exception_witness :
  @_obj_func _ _ nan_small_linalg [Some 0; Some 0]%R 1
    ([[None]] ++ [Some 1%R] :: [[Some 2%R]])
  = Raise LinAlgError.
Proof.
  eapply (@obj_func_first_exception _ _ nan_small_linalg
            [Some 0; Some 0]%R 1 [[None]] [Some 1%R] [[Some 2%R]]
            [Some 0%R] [[Some 0%R]]).
  - repeat constructor.
  - reflexivity.
  - reflexivity.
  - reflexivity.
  - unfold marginal_log_density, observed, observed_from, at_indices,
      submatrix, _log_likelihood, _pdf_normal.
    simpl. destruct (Req_dec_T 0 0) as [_|Hne]; [reflexivity|].
    exfalso. by apply Hne.
Defined.

Lemma pdf_normal_length_error_witness :
  @_pdf_normal _ _ nan_small_linalg
    [Some 1; Some 2]%R [Some 0; Some 0; Some 0]%R [[Some 1%R]]
  = Raise ValueError ∧
  @_log_likelihood _ _ nan_small_linalg
    [Some 1; Some 2]%R [Some 0; Some 0; Some 0]%R [[Some 1%R]]
  = Raise ValueError.
Proof.
  apply (@pdf_normal_length_error _ _ nan_small_linalg
           [Some 1; Some 2]%R [Some 0; Some 0; Some 0]%R [[Some 1%R]]);
    simpl; lia.
Defined.

Lemma fiml_outcome_witness :
  [[1]; [2]]%R ≠ [] ∧
  is_matrix (length [[1]; [2]]%R) (Np.ncols [[1]; [2]]%R) [[1]; [2]]%R ∧
  ∃ params0,
    _pack_params (Np.ncols [[1]; [2]]%R) (Np.zeros (Np.ncols [[1]; [2]]%R))
                 (Np.eye (Np.ncols [[1]; [2]]%R)) = Ok params0 ∧
    match @optimize_fmin _ idle_fmin
            (λ params, @_obj_func _ _ small_linalg params
                         (Np.ncols [[1]; [2]]%R) [[1]; [2]]%R)
            params0 with
    | Ok res =>
        if decide (length [[1]; [2]]%R = 1 ∧ false = false)
        then @fiml _ _ small_linalg idle_fmin [[1]; [2]]%R false
             = Raise ZeroDivisionError
        else ∃ cov,
               @fiml _ _ small_linalg idle_fmin [[1]; [2]]%R false
               = Ok (take (Np.ncols [[1]; [2]]%R) res, cov) ∧
               is_matrix (Np.ncols [[1]; [2]]%R) (Np.ncols [[1]; [2]]%R) cov ∧
               symmetric cov
    | Raise e => @fiml _ _ small_linalg idle_fmin [[1]; [2]]%R false = Raise e
    end.
Proof.
  split; [done|]. split; [by split; [|repeat constructor]|].
  apply (@fiml_outcome R _ small_linalg idle_fmin [[1]; [2]]%R false).
  - done.
  - split; [reflexivity|]. repeat constructor.
Defined.

Lemma fiml_initial_guess_witness :
  [[1]]%R ≠ [] ∧
  is_matrix (length [[1]]%R) (Np.ncols [[1]]%R) [[1]]%R ∧
  ∃ params0 : list R,
    _pack_params (Np.ncols [[1]]%R) (Np.zeros (Np.ncols [[1]]%R))
                 (Np.eye (Np.ncols [[1]]%R)) = Ok params0 ∧
    length params0
    = Np.ncols [[1]]%R + Np.ncols [[1]]%R * (Np.ncols [[1]]%R + 1) / 2 ∧
    (∀ p, p < Np.ncols [[1]]%R → Np.getitem params0 p = Ok f0) ∧
    (∀ i j, j ≤ i → i < Np.ncols [[1]]%R →
       Np.getitem params0 (Np.ncols [[1]]%R + (i * (i + 1) / 2 + j))
       = Ok (if decide (i = j) then f1 else f0)) ∧
    _unpack_params (Np.ncols [[1]]%R) params0
    = Ok (Np.zeros (Np.ncols [[1]]%R), Np.eye (Np.ncols [[1]]%R)) ∧
    (@optimize_fmin R idle_fmin
       (λ params, @_obj_func _ _ small_linalg params
                    (Np.ncols [[1]]%R) [[1]]%R) params0
     = @optimize_fmin R (constant_fmin [0; 1]%R)
         (λ params, @_obj_func _ _ small_linalg params
                      (Np.ncols [[1]]%R) [[1]]%R) params0 →
     @fiml R _ small_linalg idle_fmin [[1]]%R true
     = @fiml R _ small_linalg (constant_fmin [0; 1]%R) [[1]]%R true).
Proof.
  split; [done|]. split; [by split; [|repeat constructor]|].
  apply (@fiml_initial_guess R _ small_linalg idle_fmin
           (constant_fmin [0; 1]%R) [[1]]%R true).
  - done.
  - split; [reflexivity|]. repeat constructor.
Defined.

Lemma obj_func_all_missing_witness :
  @_obj_func _ _ nan_small_linalg
    [Some 0; Some 0; Some 1; Some 0; Some 1]%R 2
    [[None; None]; [None; None]]
  = Ok (Some 0%R).
Proof.
  apply (@obj_func_all_missing nan_small_linalg
           [Some 0; Some 0; Some 1; Some 0; Some 1]%R 2
           [[None; None]; [None; None]]).
  - reflexivity.
  - reflexivity.
  - repeat constructor.
  - reflexivity.
Defined.

(** ** Broadcasting in the density, and what a row depends on *)

Section row_dependence.
Context `{Float64 F, Linalg F}.
Implicit Types (x mean : list F) (cov : list (list F)).

Lemma subtract_one_entry x (m : F) :
  Np.subtract x [m] = Np.subtract x (replicate (length x) m).
Proof.
  unfold Np.subtract. rewrite length_replicate.
  rewrite (decide_True (P := length x = length x)) by done.
  assert (zip_with fsub x (replicate (length x) m) = (λ a, fsub a m) <$> x)
    as ->.
  { induction x as [|a x IH]; [done|]. simpl. by rewrite IH. }
  case_decide as Hd.
  - destruct x as [|a [|a' x]]; by simplify_eq/=.
  - destruct x as [|a [|a' x]]; by simplify_eq/=.
Qed.

(** X20.  A mean with one entry is broadcast over the observation:
    [_pdf_normal] and [_log_likelihood] give the same result as with the
    mean made of [len(x)] copies of the entry. *)
Theorem pdf_normal_broadcasts_mean x (m : F) cov :
  _pdf_normal x [m] cov = _pdf_normal x (replicate (length x) m) cov ∧
  _log_likelihood x [m] cov
  = _log_likelihood x (replicate (length x) m) cov.
Proof.
  unfold _log_likelihood, _pdf_normal. by rewrite subtract_one_entry.
Qed.

Lemma elem_of_observed_from x k i :
  i ∈ observed_from k x →
  ∃ v, x !! (i - k) = Some v ∧ isnan v = false ∧ k ≤ i.
Proof.
  unfold observed_from. intros Hin.
  apply list_elem_of_fmap in Hin as ([i' v] & -> & Hin).
  apply list_elem_of_filter in Hin as [Hv Hin]. simpl in Hv.
  apply list_elem_of_lookup_1 in Hin as [p Hp].
  apply lookup_zip_with_Some in Hp as (i'' & v' & [= <- <-] & Hi & Hx).
  apply lookup_seq in Hi as [-> _]. simpl. exists v.
  by rewrite Nat.add_comm, Nat.add_sub; split_and!; [done..|lia].
Qed.

Lemma elem_of_observed_nan x i :
  i ∈ observed x → ∃ v, x !! i = Some v ∧ isnan v = false.
Proof.
  intros Hin. apply elem_of_observed_from in Hin as (v & Hv & Hnan & _).
  rewrite Nat.sub_0_r in Hv. by exists v.
Qed.

(** X21.  The term of a row depends on the mean and the covariance only at
    the coordinates that the row observes: two means and two covariances
    of the same shapes that agree there give the same pass of the loop. *)
Theorem obj_body_observed_only mean mean' cov cov' objval x :
  length mean = length x → length mean' = length x →
  is_matrix (length x) (length x) cov →
  is_matrix (length x) (length x) cov' →
  (∀ i v, x !! i = Some v → isnan v = false →
     Np.getitem mean i = Np.getitem mean' i) →
  (∀ i j v w, x !! i = Some v → isnan v = false →
     x !! j = Some w → isnan w = false →
     Np.getitem2 cov i j = Np.getitem2 cov' i j) →
  obj_body mean cov objval x = obj_body mean' cov' objval x.
Proof.
  intros Hm Hm' Hc Hc' Hmean Hcov.
  rewrite !obj_body_marginal by done. unfold marginal_log_density.
  assert (at_indices mean (observed x) = at_indices mean' (observed x)) as ->.
  { apply mapM_result_ext, Forall_forall.
    intros i (v & Hv & Hnan)%elem_of_observed_nan. by eapply Hmean. }
  assert (submatrix cov (observed x) = submatrix cov' (observed x)) as ->.
  { apply mapM_result_ext, Forall_forall.
    intros i (v & Hv & Hnan)%elem_of_observed_nan.
    apply mapM_result_ext, Forall_forall.
    intros j (w & Hw & Hnan')%elem_of_observed_nan. by eapply Hcov. }
  done.
Qed.
End row_dependence.

(** The row [[1, nan]] does not see the second coordinate of the mean nor
    the second row and column of the covariance. *)
Lemma obj_body_observed_only_witness :
  @obj_body _ _ nan_small_linalg [Some 0; Some 5]%R
    [[Some 1; Some 2]; [Some 2; Some 9]]%R (Some 0%R) [Some 1%R; None]
  = @obj_body _ _ nan_small_linalg [Some 0; Some 7]%R
      [[Some 1; Some 3]; [Some 3; Some 8]]%R (Some 0%R) [Some 1%R; None].
Proof.
  apply (@obj_body_observed_only _ _ nan_small_linalg
           [Some 0; Some 5]%R [Some 0; Some 7]%R
           [[Some 1; Some 2]; [Some 2; Some 9]]%R
           [[Some 1; Some 3]; [Some 3; Some 8]]%R
           (Some 0%R) [Some 1%R; None]).
  - reflexivity.
  - reflexivity.
  - split; [reflexivity|]. repeat constructor.
  - split; [reflexivity|]. repeat constructor.
  - intros i v Hi Hv. destruct i as [|[|i]]; simplify_eq/=; reflexivity.
  - intros i j v w Hi Hv Hj Hw.
    destruct i as [|[|i]], j as [|[|j]]; simplify_eq/=; reflexivity.
Defined.
